(** * refactor.py: the Tapo URL patcher

    The script reads two C# source files, pushes each file's text through
    five [re.sub] calls that turn the [&] in front of the first query
    parameter of a URL into [?], writes the text back and prints one line.

    This development embeds the script shallowly:
    - text is a list of Unicode code points (Python [str]);
    - the five patterns are terms of a small regular-expression syntax that
      covers what they use (literal runs, digit runs, runs of characters
      other than the double quote, numbered groups),
      run by a backtracking matcher with greedy repetition, as [re] does;
    - [re.sub] is the left-to-right scan that replaces the leftmost
      non-overlapping matches by the expansion of the template [\1?\2];
    - a file holds bytes; reading in text mode decodes them strictly with
      the encoding of the locale and translates line ends, writing
      truncates the file first, translates line ends to the separator of
      the platform and encodes; either may raise;
    - the files live in a finite map from path to node, and the script is a
      computation in a state-and-error monad over that map and standard
      output. *)

From Stdlib Require Import Strings.Byte.
From stdpp Require Import gmap strings list.

Open Scope N_scope.
Open Scope nat_scope.

(** ** Text *)

(** A character is its code point; a text is a list of them. *)
Abbreviation char := N (only parsing).
Abbreviation text := (list N) (only parsing).

(** The code points of a string literal of this file (all ASCII). *)
Definition lit (s : string) : text :=
  List.map Ascii.N_of_ascii (String.list_ascii_of_string s).

Definition amp : char := 38%N.    (* & *)
Definition quest : char := 63%N.  (* ? *)
Definition quote : char := 34%N.  (* the double quote *)

(** ** Character classes *)

(** The ranges of the Unicode decimal digits (general category Nd, Unicode
    14.0, the table of CPython 3.11): what [\d] matches in a [str] pattern
    compiled without [re.ASCII]. *)
Definition decimal_ranges : list (N * N) :=
  [ (48, 57); (1632, 1641); (1776, 1785); (1984, 1993); (2406, 2415);
    (2534, 2543); (2662, 2671); (2790, 2799); (2918, 2927); (3046, 3055);
    (3174, 3183); (3302, 3311); (3430, 3439); (3558, 3567); (3664, 3673);
    (3792, 3801); (3872, 3881); (4160, 4169); (4240, 4249); (6112, 6121);
    (6160, 6169); (6470, 6479); (6608, 6617); (6784, 6793); (6800, 6809);
    (6992, 7001); (7088, 7097); (7232, 7241); (7248, 7257); (42528, 42537);
    (43216, 43225); (43264, 43273); (43472, 43481); (43504, 43513);
    (43600, 43609); (44016, 44025); (65296, 65305); (66720, 66729);
    (68912, 68921); (69734, 69743); (69872, 69881); (69942, 69951);
    (70096, 70105); (70384, 70393); (70736, 70745); (70864, 70873);
    (71248, 71257); (71360, 71369); (71472, 71481); (71904, 71913);
    (72016, 72025); (72784, 72793); (73040, 73049); (73120, 73129);
    (92768, 92777); (92864, 92873); (93008, 93017); (120782, 120831);
    (123200, 123209); (123632, 123641); (125264, 125273);
    (130032, 130041) ]%N.

Definition is_decimal (c : char) : bool :=
  existsb (λ '(lo, hi), (lo <=? c)%N && (c <=? hi)%N) decimal_ranges.

Inductive cclass : Type :=
| Digit              (* \d *)
| NoneOf (c : char). (* [^c] *)

Definition in_class (k : cclass) (c : char) : bool :=
  match k with
  | Digit => is_decimal c
  | NoneOf x => negb (c =? x)%N
  end.

(** ** Patterns and the matcher *)

Inductive regex : Type :=
| Str (l : text)                (* a run of literal characters *)
| Plus (k : cclass)             (* k+, greedy *)
| Seq (r1 r2 : regex)           (* r1 r2 *)
| Group (i : nat) (r : regex).  (* ( r ), the i-th group *)

(** The spans of the groups closed so far, as offsets from the start of
    the match. *)
Abbreviation groups := (gmap nat (nat * nat)) (only parsing).

(** [strip l s] is [s] without its prefix [l], if [l] is a prefix. *)
Fixpoint strip (l s : text) : option text :=
  match l, s with
  | [], _ => Some s
  | a :: l', b :: s' => if (a =? b)%N then strip l' s' else None
  | _ :: _, [] => None
  end.

(** Greedy [k+] followed by the continuation [κ]: take a character of the
    class, try first to take more, and fall back to stopping here when the
    longer attempts all fail. *)
Fixpoint plus_then {A} (k : cclass) (κ : nat → text → option A)
    (pos : nat) (s : text) : option A :=
  match s with
  | c :: s' =>
      if in_class k c then
        match plus_then k κ (S pos) s' with
        | Some res => Some res
        | None => κ (S pos) s'
        end
      else None
  | [] => None
  end.

(** The backtracking matcher in continuation-passing style: [pos] is the
    number of characters consumed since the start of the match, [s] the
    text still ahead, [g] the groups. *)
Fixpoint rmatch (r : regex) (κ : nat → text → groups → option (nat * groups))
    (pos : nat) (s : text) (g : groups) : option (nat * groups) :=
  match r with
  | Str l =>
      match strip l s with
      | Some t => κ (pos + length l) t g
      | None => None
      end
  | Plus k => plus_then k (λ p t, κ p t g) pos s
  | Seq r1 r2 => rmatch r1 (rmatch r2 κ) pos s g
  | Group i r1 => rmatch r1 (λ p t g', κ p t (<[i := (pos, p)]> g')) pos s g
  end.

(** [pattern.match] at the head of [s]: the end of the match and its
    groups. *)
Definition match_at (r : regex) (s : text) : option (nat * groups) :=
  rmatch r (λ p _ g, Some (p, g)) 0 s ∅.

(** ** Replacement templates and [re.sub] *)

Inductive titem : Type :=
| TChr (c : char)   (* a literal character of the template *)
| TRef (i : nat).   (* \i *)

Definition group_text (g : groups) (i : nat) (s : text) : text :=
  match g !! i with
  | Some (b, e) => take (e - b) (drop b s)
  | None => []
  end.

Fixpoint expand (t : list titem) (g : groups) (s : text) : text :=
  match t with
  | [] => []
  | TChr c :: t' => c :: expand t' g s
  | TRef i :: t' => group_text g i s ++ expand t' g s
  end.

(** The scan of [re.sub]: at each position outside the last match, try the
    pattern; on a match emit the expanded template and skip the matched
    characters, otherwise copy the character.  [skip] counts the characters
    of the last match still to be passed over.  None of the script's
    patterns matches the empty string, so the special treatment [re.sub]
    gives to empty matches is left out. *)
Fixpoint scan (r : regex) (t : list titem) (skip : nat) (s : text) : text :=
  match s with
  | [] => []
  | c :: s' =>
      match skip with
      | S n => scan r t n s'
      | 0 =>
          match match_at r s with
          | Some (e, g) => expand t g s ++ scan r t (e - 1) s'
          | None => c :: scan r t 0 s'
          end
      end
  end.

Definition re_sub (r : regex) (t : list titem) (s : text) : text :=
  scan r t 0 s.

(** [re.search(r, s) is not None]: the pattern matches somewhere. *)
Fixpoint re_search (r : regex) (s : text) : bool :=
  match match_at r s with
  | Some _ => true
  | None =>
      match s with
      | [] => false
      | _ :: s' => re_search r s'
      end
  end.

(** ** The five rules of the script *)

(* r'(l9\d+/set-brightness)&(level=)' *)
Definition pat_brightness : regex :=
  Seq (Group 1 (Seq (Str (lit "l9"))
               (Seq (Plus Digit) (Str (lit "/set-brightness")))))
      (Seq (Str (lit "&")) (Group 2 (Str (lit "level=")))).

(* r'(l9\d+/set-hue-saturation)&(hue=)' *)
Definition pat_hue : regex :=
  Seq (Group 1 (Seq (Str (lit "l9"))
               (Seq (Plus Digit) (Str (lit "/set-hue-saturation")))))
      (Seq (Str (lit "&")) (Group 2 (Str (lit "hue=")))).

(* r'(l9\d+/set-color-temperature)&(color_temperature=)' *)
Definition pat_color : regex :=
  Seq (Group 1 (Seq (Str (lit "l9"))
               (Seq (Plus Digit) (Str (lit "/set-color-temperature")))))
      (Seq (Str (lit "&")) (Group 2 (Str (lit "color_temperature=")))).

(* r'(l9\d+/set-lighting-effect)&(lighting_effect=)' *)
Definition pat_effect : regex :=
  Seq (Group 1 (Seq (Str (lit "l9"))
               (Seq (Plus Digit) (Str (lit "/set-lighting-effect")))))
      (Seq (Str (lit "&")) (Group 2 (Str (lit "lighting_effect=")))).

(* r'(p\d+/get-[^Q]+)&(start_date=)', Q standing for the double quote *)
Definition pat_start_date : regex :=
  Seq (Group 1 (Seq (Str (lit "p"))
               (Seq (Plus Digit)
               (Seq (Str (lit "/get-")) (Plus (NoneOf quote))))))
      (Seq (Str (lit "&")) (Group 2 (Str (lit "start_date=")))).

(* r'\1?\2' *)
Definition repl : list titem := [TRef 1; TChr quest; TRef 2].

(** The body of the loop between the read and the write: the five
    assignments to [content]. *)
Definition transform (content : text) : text :=
  let content := re_sub pat_brightness repl content in
  let content := re_sub pat_hue repl content in
  let content := re_sub pat_color repl content in
  let content := re_sub pat_effect repl content in
  let content := re_sub pat_start_date repl content in
  content.

(** ** Bytes, encodings and line ends *)

(** Both [open] calls of the script are in text mode, with no [encoding]
    and no [newline] argument: the bytes of a file are decoded and encoded
    with the preferred encoding of the locale, strictly, and line ends are
    translated.  The platform fixes the encoding and the line separator. *)
Abbreviation bytes := (list byte) (only parsing).

Inductive encoding : Type := UTF_8 | Latin_1 | ASCII.

Inductive newline : Type := LF | CRLF.

Record platform : Type := Platform {
  preferred_encoding : encoding;  (* locale.getpreferredencoding(False) *)
  linesep : newline               (* os.linesep *)
}.

Definition cr : char := 13%N.  (* carriage return *)
Definition lf : char := 10%N.  (* line feed *)

(** The byte with the given value. *)
Definition octet (n : N) : byte := default Byte.x00 (Byte.of_N n).

(** The UTF-8 sequence of a code point; none for a surrogate. *)
Definition utf8_char (c : char) : option bytes :=
  if (c <? 0x80)%N then Some [octet c]
  else if (c <? 0x800)%N then
    Some [octet (0xC0 + c / 64); octet (0x80 + c mod 64)]
  else if (c <? 0x10000)%N then
    if (0xD800 <=? c)%N && (c <? 0xE000)%N then None
    else Some [octet (0xE0 + c / 4096); octet (0x80 + (c / 64) mod 64);
               octet (0x80 + c mod 64)]
  else if (c <? 0x110000)%N then
    Some [octet (0xF0 + c / 262144); octet (0x80 + (c / 4096) mod 64);
          octet (0x80 + (c / 64) mod 64); octet (0x80 + c mod 64)]
  else None.

Definition enc_char (e : encoding) (c : char) : option bytes :=
  match e with
  | UTF_8 => utf8_char c
  | Latin_1 => if (c <? 256)%N then Some [octet c] else None
  | ASCII => if (c <? 128)%N then Some [octet c] else None
  end.

(** [str.encode], errors strict: no bytes when a character has none. *)
Fixpoint encode (e : encoding) (s : text) : option bytes :=
  match s with
  | [] => Some []
  | c :: s' => b ← enc_char e c; r ← encode e s'; Some (b ++ r)
  end.

(** The payload of a byte that continues a UTF-8 sequence, when the byte
    lies between the bounds. *)
Definition trail (lo hi : N) (b : byte) : option N :=
  let n := Byte.to_N b in
  if (lo <=? n)%N && (n <=? hi)%N then Some (n - 0x80)%N else None.

(** The strict UTF-8 decoder: no overlong form, no surrogate, nothing
    above U+10FFFF, no sequence cut short. *)
Fixpoint utf8_decode (b : bytes) : option text :=
  match b with
  | [] => Some []
  | b0 :: r =>
      let n0 := Byte.to_N b0 in
      if (n0 <? 0x80)%N then cons n0 <$> utf8_decode r
      else if (n0 <? 0xC2)%N then None
      else if (n0 <? 0xE0)%N then
        match r with
        | b1 :: r1 =>
            x1 ← trail 0x80 0xBF b1;
            s ← utf8_decode r1;
            Some (((n0 - 0xC0) * 64 + x1)%N :: s)
        | _ => None
        end
      else if (n0 <? 0xF0)%N then
        match r with
        | b1 :: b2 :: r2 =>
            x1 ← trail (if (n0 =? 0xE0)%N then 0xA0 else 0x80)
                       (if (n0 =? 0xED)%N then 0x9F else 0xBF) b1;
            x2 ← trail 0x80 0xBF b2;
            s ← utf8_decode r2;
            Some (((n0 - 0xE0) * 4096 + x1 * 64 + x2)%N :: s)
        | _ => None
        end
      else if (n0 <? 0xF5)%N then
        match r with
        | b1 :: b2 :: b3 :: r3 =>
            x1 ← trail (if (n0 =? 0xF0)%N then 0x90 else 0x80)
                       (if (n0 =? 0xF4)%N then 0x8F else 0xBF) b1;
            x2 ← trail 0x80 0xBF b2;
            x3 ← trail 0x80 0xBF b3;
            s ← utf8_decode r3;
            Some (((n0 - 0xF0) * 262144 + x1 * 4096 + x2 * 64 + x3)%N :: s)
        | _ => None
        end
      else None
  end.

(** [bytes.decode], errors strict. *)
Definition decode (e : encoding) (b : bytes) : option text :=
  match e with
  | UTF_8 => utf8_decode b
  | Latin_1 => Some (Byte.to_N <$> b)
  | ASCII =>
      mapM (λ x, if (Byte.to_N x <? 128)%N then Some (Byte.to_N x) else None) b
  end.

(** Universal newlines, what reading does with [newline=None]: a carriage
    return with the line feed behind it, and a carriage return alone, come
    out as one line feed. *)
Fixpoint universal_newlines (s : text) : text :=
  match s with
  | [] => []
  | c :: r =>
      if (c =? cr)%N then
        match r with
        | d :: r' =>
            if (d =? lf)%N then lf :: universal_newlines r'
            else lf :: universal_newlines r
        | [] => [lf]
        end
      else c :: universal_newlines r
  end.

(** What writing does with [newline=None]: every line feed goes out as
    the line separator of the platform. *)
Definition to_linesep (sep : newline) (s : text) : text :=
  match sep with
  | LF => s
  | CRLF => s ≫= (λ c, if (c =? lf)%N then [cr; lf] else [c])
  end.

(** The text that [f.read()] returns for the bytes of a file. *)
Definition read_text (p : platform) (b : bytes) : option text :=
  universal_newlines <$> decode (preferred_encoding p) b.

(** The bytes that [f.write(s)] sends to the file. *)
Definition write_bytes (p : platform) (s : text) : option bytes :=
  encode (preferred_encoding p) (to_linesep (linesep p) s).

(** The bytes of a text under UTF-8, for the sample files. *)
Definition utf8 (s : text) : bytes := default [] (encode UTF_8 s).

(** ** Files, standard output and the script *)

(** A regular file holds bytes, with what the process may do to it. *)
Record file : Type := File {
  data : bytes;
  readable : bool;
  writable : bool
}.

Inductive node : Type :=
| Directory
| Regular (f : file).

(** What the device does to a path besides: reading it fails, or writing
    to it fails after so many bytes have reached the file. *)
Inductive fault : Type :=
| ReadFault
| WriteFault (written : nat).

(** What the run completed on the outside, in order. *)
Inductive event : Type :=
| Wrote (path : string) (content : text)
| Printed (line : string).

Record world : Type := World {
  platform_of : platform;
  fs : gmap string node;
  faults : gmap string fault;
  log : list event
}.

(** The exceptions of the two [with] blocks. *)
Inductive error : Type :=
| FileNotFoundError (path : string)
| IsADirectoryError (path : string)
| PermissionError (path : string)
| UnicodeDecodeError (path : string)
| UnicodeEncodeError (path : string)
| OSError (path : string).

Definition with_fs (w : world) (m : gmap string node) : world :=
  {| platform_of := platform_of w; fs := m; faults := faults w;
     log := log w |}.

Definition logged (w : world) (e : event) : world :=
  {| platform_of := platform_of w; fs := fs w; faults := faults w;
     log := log w ++ [e] |}.

(** Computations that change the world and may raise: the world reached
    when the error is raised is kept, nothing catches the error. *)
Definition io (A : Type) : Type := world → world * (error + A).

Global Instance io_ret : MRet io := λ A a w, (w, inr a).

Global Instance io_bind : MBind io := λ A B f m w,
  match m w with
  | (w', inr a) => f a w'
  | (w', inl e) => (w', inl e)
  end.

(* with open(path, 'r') as f: return f.read() *)
Definition read_file (path : string) : io text :=
  λ w, match fs w !! path with
       | None => (w, inl (FileNotFoundError path))
       | Some Directory => (w, inl (IsADirectoryError path))
       | Some (Regular f) =>
           if negb (readable f) then (w, inl (PermissionError path))
           else
             match faults w !! path with
             | Some ReadFault => (w, inl (OSError path))
             | _ =>
                 match read_text (platform_of w) (data f) with
                 | Some content => (w, inr content)
                 | None => (w, inl (UnicodeDecodeError path))
                 end
             end
       end.

(* with open(path, 'w') as f: f.write(content) *)
Definition write_file (path : string) (content : text) : io unit :=
  λ w,
    (* the file as [open] leaves it, empty, with the bytes that follow *)
    let store r b := with_fs w (<[path := Regular (File b r true)]> (fs w)) in
    let write r :=
      match write_bytes (platform_of w) content with
      | None => (store r [], inl (UnicodeEncodeError path))
      | Some b =>
          match faults w !! path with
          | Some (WriteFault n) => (store r (take n b), inl (OSError path))
          | _ => (logged (store r b) (Wrote path content), inr tt)
          end
      end in
    match fs w !! path with
    | None => write true
    | Some Directory => (w, inl (IsADirectoryError path))
    | Some (Regular f) =>
        if writable f then write (readable f)
        else (w, inl (PermissionError path))
    end.

Definition print (line : string) : io unit :=
  λ w, (logged w (Printed line), inr tt).

Fixpoint for_each {A} (l : list A) (body : A → io unit) : io unit :=
  match l with
  | [] => mret tt
  | x :: l' => _ ← body x; for_each l' body
  end.

Definition files : list string :=
  ["TapoLightStripOperations.cs"; "TapoPlugOperations.cs"]%string.

(** The body of the loop. *)
Definition patch (file : string) : io unit :=
  content ← read_file file;
  write_file file (transform content).

(** The script. *)
Definition run : io unit :=
  _ ← for_each files patch;
  print "Fixed URL constructions".

(** The lines on standard output. *)
Definition stdout (w : world) : list string :=
  omap (λ e, match e with Printed l => Some l | Wrote _ _ => None end) (log w).

(** The bytes at a path, when a regular file is there. *)
Definition bytes_at (w : world) (path : string) : option bytes :=
  match fs w !! path with
  | Some (Regular f) => Some (data f)
  | _ => None
  end.

(** ** What a pattern matches, declaratively *)

(** [matches r pos w g g']: the pattern [r] matches exactly the word [w]
    when the word starts at offset [pos], and turns the groups [g] into
    [g']. *)
Inductive matches : regex → nat → text → groups → groups → Prop :=
| matches_str l pos g :
    matches (Str l) pos l g g
| matches_plus k pos w g :
    w ≠ [] → Forall (λ c, in_class k c = true) w →
    matches (Plus k) pos w g g
| matches_seq r1 r2 pos w1 w2 g g1 g2 :
    matches r1 pos w1 g g1 →
    matches r2 (pos + length w1) w2 g1 g2 →
    matches (Seq r1 r2) pos (w1 ++ w2) g g2
| matches_group i r pos w g g1 :
    matches r pos w g g1 →
    matches (Group i r) pos w g (<[i := (pos, pos + length w)]> g1).

(** The words of a pattern, groups forgotten. *)
Inductive lang : regex → text → Prop :=
| lang_str l : lang (Str l) l
| lang_plus k w :
    w ≠ [] → Forall (λ c, in_class k c = true) w → lang (Plus k) w
| lang_seq r1 r2 w1 w2 :
    lang r1 w1 → lang r2 w2 → lang (Seq r1 r2) (w1 ++ w2)
| lang_group i r w : lang r w → lang (Group i r) w.

(** A pattern without groups. *)
Fixpoint flat (r : regex) : bool :=
  match r with
  | Str _ | Plus _ => true
  | Seq r1 r2 => flat r1 && flat r2
  | Group _ _ => false
  end.

(** ** The shape of the rules *)

(** Every pattern of the script is [(A)&(B)] for group-free [A] and [B]. *)
Definition rule_pat (A B : regex) : regex :=
  Seq (Group 1 A) (Seq (Str (lit "&")) (Group 2 B)).

(** One character of the input against the character the script puts in
    its place: the same, or [?] for [&]. *)
Definition amp_step (c d : char) : Prop := d = c ∨ (c = amp ∧ d = quest).

(** [rewrites A B s o]: [o] is [s] with the separator of some disjoint
    occurrences of [A & B] turned into [?]. *)
Inductive rewrites (A B : regex) : text → text → Prop :=
| rewrites_nil : rewrites A B [] []
| rewrites_copy c s o :
    rewrites A B s o → rewrites A B (c :: s) (c :: o)
| rewrites_hit w1 w2 s o :
    lang A w1 → lang B w2 → rewrites A B s o →
    rewrites A B (w1 ++ amp :: w2 ++ s) (w1 ++ quest :: w2 ++ o).

(** The two families of paths: [l9\d+] and a literal, for the light
    strip, and [p\d+/get-] and a run free of double quotes, for the
    records of the plug. *)
Definition light_path (path : text) : regex :=
  Seq (Str (lit "l9")) (Seq (Plus Digit) (Str path)).

Definition light_pat (path param : text) : regex :=
  rule_pat (light_path path) (Str param).

Definition record_path : regex :=
  Seq (Str (lit "p"))
      (Seq (Plus Digit) (Seq (Str (lit "/get-")) (Plus (NoneOf quote)))).

Definition digits (ds : text) : Prop := Forall (λ c, is_decimal c = true) ds.

(** Side conditions on the literals of a light-strip rule, all checked by
    evaluation: the path starts with a character that is no digit; behind
    the digits no [l] is followed by [9] or stands last; no [?] occurs. *)
Definition head_not_digit (l : text) : bool :=
  match l with
  | c :: _ => negb (is_decimal c)
  | [] => false
  end.

Fixpoint no_restart (l : text) : bool :=
  match l with
  | [] => true
  | c :: l' =>
      (if (c =? 108)%N
       then match l' with d :: _ => negb (d =? 57)%N | [] => false end
       else true)
      && no_restart l'
  end.

Definition light_ok (path param : text) : bool :=
  head_not_digit path
  && no_restart (path ++ amp :: param)
  && forallb (λ c, negb (c =? quest)%N) (path ++ param).

(** ** Texts with crowded start dates *)

Definition sd_sep : text := lit "&start_date=".

(** Two occurrences of [&start_date=] with no double quote between them. *)
Definition crowded (t : text) : Prop :=
  ∃ a b c, t = a ++ sd_sep ++ b ++ sd_sep ++ c ∧ quote ∉ b.

(** The same, decided from left to right: [seen] tells whether an
    occurrence was met since the last double quote. *)
Fixpoint spaced (seen : bool) (s : text) : bool :=
  match s with
  | [] => true
  | c :: s' =>
      if (c =? quote)%N then spaced false s'
      else match strip sd_sep s with
           | Some _ => negb seen && spaced true s'
           | None => spaced seen s'
           end
  end.

(** ** The rule set as the specification words it *)

(** The five patterns, in the order of the script. *)
Definition patterns : list regex :=
  [pat_brightness; pat_hue; pat_color; pat_effect; pat_start_date].

(** A substitution rule of the specification: the path fragment and the
    parameter name between which the separator is rewritten. *)
Definition spec_rules : list (regex * text) :=
  [ (light_path (lit "/set-brightness"), lit "level=");
    (light_path (lit "/set-hue-saturation"), lit "hue=");
    (light_path (lit "/set-color-temperature"), lit "color_temperature=");
    (light_path (lit "/set-lighting-effect"), lit "lighting_effect=");
    (record_path, lit "start_date=") ].

Definition apply_rule (buffer : text) (rule : regex * text) : text :=
  re_sub (rule_pat rule.1 (Str rule.2)) repl buffer.

(** The rules chained: each scans the result of the one before. *)
Definition spec_transform (content : text) : text :=
  fold_left apply_rule spec_rules content.

(** Path literal and parameter name of the four light-strip rules. *)
Definition light_rules : list (text * text) :=
  [ (lit "/set-brightness", lit "level=");
    (lit "/set-hue-saturation", lit "hue=");
    (lit "/set-color-temperature", lit "color_temperature=");
    (lit "/set-lighting-effect", lit "lighting_effect=") ].

(** No pattern of the script matches anywhere in the text. *)
Definition unmatched (s : text) : bool :=
  forallb (λ r, negb (re_search r s)) patterns.

(** ** The end-to-end scenario *)

Definition scenario_in : text :=
  quote :: lit "http://host/l9001/set-brightness&level=80" ++ quote
  :: lit " and " ++ quote
  :: lit "http://host/p5/get-record&start_date=2024-01-01" ++ [quote].

Definition scenario_out : text :=
  quote :: lit "http://host/l9001/set-brightness?level=80" ++ quote
  :: lit " and " ++ quote
  :: lit "http://host/p5/get-record?start_date=2024-01-01" ++ [quote].

(** A platform of the POSIX kind. *)
Definition posix : platform := Platform UTF_8 LF.

Definition scenario_world : world :=
  {| platform_of := posix;
     fs := {[ "TapoLightStripOperations.cs"%string
                := Regular (File (utf8 scenario_in) true true);
              "TapoPlugOperations.cs"%string
                := Regular (File (utf8 scenario_in) true true) ]};
     faults := ∅;
     log := [] |}.

(** ** Matches and failures, for the statements below *)

(** The spans (start, end) of the matches that the scan of [re.sub]
    replaces, the ones [re.finditer] yields. *)
Fixpoint spans_from (r : regex) (pos skip : nat) (s : text)
    : list (nat * nat) :=
  match s with
  | [] => []
  | _ :: s' =>
      match skip with
      | S n => spans_from r (S pos) n s'
      | 0 =>
          match match_at r s with
          | Some (e, _) => (pos, pos + e) :: spans_from r (S pos) (e - 1) s'
          | None => spans_from r (S pos) 0 s'
          end
      end
  end.

Definition finditer (r : regex) (s : text) : list (nat * nat) :=
  spans_from r 0 0 s.

Definition apart (m1 m2 : nat * nat) : bool :=
  (m1.2 <=? m2.1) || (m2.2 <=? m1.1).

Definition all_apart (l1 l2 : list (nat * nat)) : bool :=
  forallb (λ m1, forallb (apart m1) l2) l1.

(** The text of [s] between two offsets. *)
Definition slice (b e : nat) (s : text) : text := take (e - b) (drop b s).

(** Both [open] calls of the loop body succeed on the file. *)
Definition openable (w : world) (path : string) : bool :=
  match fs w !! path with
  | Some (Regular f) => readable f && writable f
  | _ => false
  end.

(** The loop body gets through the file at the path: a regular file is
    there that may be read and written, the device has no fault for it,
    and its bytes read as the text [content]. *)
Definition holds (w : world) (path : string) (f : file) (content : text)
    : Prop :=
  fs w !! path = Some (Regular f)
  ∧ readable f = true ∧ writable f = true
  ∧ faults w !! path = None
  ∧ read_text (platform_of w) (data f) = Some content.


(** ** Sample worlds *)











(** ** More of the script, for the further properties *)

(** The first four assignments to [content], the light-strip rules. *)
Definition light_pass (content : text) : text :=
  let content := re_sub pat_brightness repl content in
  let content := re_sub pat_hue repl content in
  let content := re_sub pat_color repl content in
  let content := re_sub pat_effect repl content in
  content.

(** The error that the loop body raises on the file, if any: the errors
    of reading come before the errors of writing. *)
Definition failure (w : world) (path : string) : option error :=
  match fs w !! path with
  | None => Some (FileNotFoundError path)
  | Some Directory => Some (IsADirectoryError path)
  | Some (Regular f) =>
      if negb (readable f) then Some (PermissionError path)
      else
        match faults w !! path, read_text (platform_of w) (data f) with
        | Some ReadFault, _ => Some (OSError path)
        | _, None => Some (UnicodeDecodeError path)
        | Some (WriteFault _), Some _ =>
            if writable f then Some (OSError path)
            else Some (PermissionError path)
        | None, Some _ =>
            if writable f then None else Some (PermissionError path)
        end
  end.

(** The pattern has no way to match the character [q]: [q] occurs in
    none of its literals and belongs to none of its classes. *)
Fixpoint avoids (q : char) (r : regex) : bool :=
  match r with
  | Str l => forallb (λ c, negb (c =? q)%N) l
  | Plus k => negb (in_class k q)
  | Seq r1 r2 => avoids q r1 && avoids q r2
  | Group _ r1 => avoids q r1
  end.

(** ** Texts that a rule cannot tell apart *)

(** The pattern mentions neither [&] nor [?] and its classes treat the two
    alike. *)
Fixpoint blind (r : regex) : bool :=
  match r with
  | Str l => forallb (λ c, negb (c =? amp)%N && negb (c =? quest)%N) l
  | Plus k => eqb (in_class k amp) (in_class k quest)
  | Seq r1 r2 => blind r1 && blind r2
  | Group _ r1 => blind r1
  end.

(** [sim param s s']: [s'] is [s] with some [&] turned into [?], none of
    them in front of [param]. *)
Inductive sim (param : text) : text → text → Prop :=
| sim_nil : sim param [] []
| sim_same c s s' : sim param s s' → sim param (c :: s) (c :: s')
| sim_flip s s' :
    sim param s s' → strip param s = None →
    sim param (amp :: s) (quest :: s').

(** [overlay s' o]: the text [o] with the [?] of [s'] laid over it. *)
Fixpoint overlay (s' o : text) : text :=
  match s', o with
  | a :: s1, b :: o1 =>
      (if (a =? quest)%N then quest else b) :: overlay s1 o1
  | _, _ => []
  end.

(** Neither text is a prefix of the other. *)
Fixpoint clash (p1 p2 : text) : bool :=
  match p1, p2 with
  | a :: p1', b :: p2' => if (a =? b)%N then clash p1' p2' else true
  | _, _ => false
  end.

(** Two rules of the specification whose paths are blind and whose
    parameter names clash. *)
Definition compatible (rule1 rule2 : regex * text) : bool :=
  flat rule1.1 && flat rule2.1 && blind rule1.1 && blind rule2.1
  && blind (Str rule1.2) && blind (Str rule2.2) && clash rule1.2 rule2.2.

(** Spans that follow one another between two offsets: each is not
    empty, starts where the one before has ended or later, and ends within
    the bound. *)
Fixpoint in_order (lo hi : nat) (l : list (nat * nat)) : Prop :=
  match l with
  | [] => True
  | (b, e) :: l' => lo ≤ b ∧ b < e ∧ e ≤ hi ∧ in_order e hi l'
  end.





(** * The matcher against the declarative reading *)

(** Appends reassociated to the right, conses pulled out, in a hypothesis
    and in the goal. *)
Ltac list_norm_in H :=
  repeat first
    [rewrite <- app_assoc in H | rewrite <- app_comm_cons in H
    | rewrite app_nil_l in H].

Ltac list_norm :=
  repeat first
    [rewrite <- app_assoc | rewrite <- app_comm_cons | rewrite app_nil_l].

Section Matcher.

Lemma strip_Some l s t : strip l s = Some t ↔ s = l ++ t.
Proof.
  revert s. induction l as [|a l IH]; intros [|b s]; simpl.
  - split; congruence.
  - split; congruence.
  - split; [discriminate | intros [=]].
  - destruct (N.eqb_spec a b) as [->|Hne].
    + rewrite IH. split; congruence.
    + split; [discriminate | congruence].
Qed.

Lemma strip_app l t : strip l (l ++ t) = Some t.
Proof. by apply strip_Some. Qed.

Lemma plus_then_sound {A} k (κ : nat → text → option A) pos s res :
  plus_then k κ pos s = Some res →
  ∃ w t, s = w ++ t ∧ w ≠ [] ∧ Forall (λ c, in_class k c = true) w
         ∧ κ (pos + length w) t = Some res.
Proof.
  revert pos. induction s as [|c s IH]; intros pos; simpl; [done|].
  destruct (in_class k c) eqn:Hc; [|done].
  destruct (plus_then k κ (S pos) s) as [res'|] eqn:Hrec.
  - intros [= ->]. destruct (IH _ Hrec) as (w & t & -> & _ & Hw & Hk).
    exists (c :: w), t. split_and!; [done|done|by constructor|].
    simpl. by replace (pos + S (length w)) with (S pos + length w) by lia.
  - intros Hk. exists [c], s. split_and!; [done|done|by repeat constructor|].
    simpl. by replace (pos + 1) with (S pos) by lia.
Qed.

Lemma plus_then_complete {A} k (κ : nat → text → option A) pos w t :
  w ≠ [] → Forall (λ c, in_class k c = true) w →
  is_Some (κ (pos + length w) t) →
  is_Some (plus_then k κ pos (w ++ t)).
Proof.
  revert pos. induction w as [|c w IH]; intros pos Hne Hw Hk; [done|].
  inversion_clear Hw as [|?? Hc Hw']. simpl. rewrite Hc.
  simpl in Hk. replace (pos + S (length w)) with (S pos + length w) in Hk by lia.
  destruct w as [|d w].
  - simpl in *. destruct (plus_then k κ (S pos) t); [done|].
    by replace (S pos) with (S pos + 0) by lia.
  - destruct (IH (S pos)) as [res ->]; done.
Qed.

Lemma rmatch_sound r κ pos s g res :
  rmatch r κ pos s g = Some res →
  ∃ w t g', s = w ++ t ∧ matches r pos w g g'
            ∧ κ (pos + length w) t g' = Some res.
Proof.
  revert κ pos s g res.
  induction r as [l|k|r1 IH1 r2 IH2|i r IH]; intros κ pos s g res; simpl.
  - destruct (strip l s) as [t|] eqn:Hs; [|done].
    apply strip_Some in Hs as ->. intros Hk.
    exists l, t, g. split_and!; [done|constructor|done].
  - intros (w & t & -> & Hne & Hw & Hk)%plus_then_sound.
    exists w, t, g. split_and!; [done|by constructor|done].
  - intros (w1 & t1 & g1 & -> & Hm1 & Hk1)%IH1.
    apply IH2 in Hk1 as (w2 & t & g2 & -> & Hm2 & Hk).
    exists (w1 ++ w2), t, g2. split_and!.
    + by rewrite <- app_assoc.
    + by econstructor.
    + by rewrite length_app, Nat.add_assoc.
  - intros (w & t & g1 & -> & Hm & Hk)%IH.
    exists w, t, (<[i := (pos, pos + length w)]> g1).
    split_and!; [done|by constructor|done].
Qed.

Lemma rmatch_complete r κ pos w t g g' :
  matches r pos w g g' →
  is_Some (κ (pos + length w) t g') →
  is_Some (rmatch r κ pos (w ++ t) g).
Proof.
  intros Hm. revert κ t.
  induction Hm as [l pos g|k pos w g Hne Hw
                  |r1 r2 pos w1 w2 g g1 g2 _ IH1 _ IH2
                  |i r pos w g g1 _ IH]; intros κ t Hk; simpl.
  - by rewrite strip_app.
  - by apply plus_then_complete.
  - rewrite <- app_assoc. apply IH1, IH2.
    by rewrite length_app, Nat.add_assoc in Hk.
  - by apply IH.
Qed.

Lemma matches_lang r pos w g g' : matches r pos w g g' → lang r w.
Proof. induction 1; by constructor. Qed.

Lemma lang_matches r pos w g :
  flat r = true → lang r w → matches r pos w g g.
Proof.
  intros Hf Hl. revert pos. induction Hl; intros pos; simpl in Hf.
  - constructor.
  - by constructor.
  - apply andb_prop in Hf as [??]. econstructor; eauto.
  - done.
Qed.

Lemma matches_flat r pos w g g' :
  flat r = true → matches r pos w g g' → g' = g.
Proof.
  intros Hf Hm.
  induction Hm as [| |???????? Hm1 IH1 Hm2 IH2|]; simpl in Hf; try done.
  apply andb_prop in Hf as [Hf1 Hf2]. by rewrite IH2, IH1.
Qed.

End Matcher.

(** * The scan of [re.sub] *)

Section Scan.

Lemma match_at_sound r s e g :
  match_at r s = Some (e, g) →
  ∃ w t, s = w ++ t ∧ matches r 0 w ∅ g ∧ e = length w.
Proof.
  unfold match_at.
  intros (w & t & g' & -> & Hm & [= <- <-])%rmatch_sound. eauto.
Qed.

Lemma match_at_complete r w t g :
  matches r 0 w ∅ g → is_Some (match_at r (w ++ t)).
Proof. intros Hm. eapply rmatch_complete; [done|]. by eexists. Qed.

Lemma scan_skip r t n s : scan r t n s = scan r t 0 (drop n s).
Proof.
  revert s. induction n as [|n IH]; intros [|c s]; try done.
  simpl. apply IH.
Qed.

Lemma re_sub_miss r t c s :
  match_at r (c :: s) = None → re_sub r t (c :: s) = c :: re_sub r t s.
Proof. unfold re_sub. simpl. by intros ->. Qed.

Lemma re_sub_hit r t s e g :
  match_at r s = Some (e, g) → 0 < e → s ≠ [] →
  re_sub r t s = expand t g s ++ re_sub r t (drop e s).
Proof.
  destruct s as [|c s]; [done|]. intros Hm He _.
  unfold re_sub. cbn [scan]. rewrite Hm, scan_skip.
  destruct e; [lia|]. simpl. by rewrite Nat.sub_0_r.
Qed.

Lemma re_search_false_here r s : re_search r s = false → match_at r s = None.
Proof. destruct s; simpl; by destruct (match_at r _). Qed.

Lemma re_search_false_tail r c s :
  re_search r (c :: s) = false → re_search r s = false.
Proof. cbn [re_search]. by destruct (match_at r (c :: s)). Qed.

Lemma re_search_true r s :
  re_search r s = true → ∃ x y, s = x ++ y ∧ is_Some (match_at r y).
Proof.
  induction s as [|c s IH]; cbn [re_search].
  - destruct (match_at r []) eqn:H; [|done]. exists [], []. eauto.
  - destruct (match_at r (c :: s)) eqn:H.
    + exists [], (c :: s). eauto.
    + intros (x & y & -> & Hy)%IH. by exists (c :: x), y.
Qed.

(** A pattern that matches nowhere leaves the text as it is. *)
Lemma re_sub_no_match r t s : re_search r s = false → re_sub r t s = s.
Proof.
  induction s as [|c s IH]; [done|]. intros H.
  rewrite re_sub_miss by by apply re_search_false_here.
  f_equal. eauto using re_search_false_tail.
Qed.

End Scan.

(** * Rules of the shape [(A)&(B)] *)

Section Rule.

Variables A B : regex.
Hypothesis flat_A : flat A = true.
Hypothesis flat_B : flat B = true.

Lemma rule_matches_inv w g :
  matches (rule_pat A B) 0 w ∅ g →
  ∃ w1 w2, w = w1 ++ amp :: w2 ∧ lang A w1 ∧ lang B w2
           ∧ g !! 1 = Some (0, length w1)
           ∧ g !! 2 = Some (S (length w1), S (length w1) + length w2).
Proof.
  unfold rule_pat. intros Hm.
  inversion Hm as [| |?? ? wa wr ? ga ? Ha Hr|]; subst; clear Hm.
  inversion Ha as [| | |?? ? ? ? ga' Ha']; subst; clear Ha.
  inversion Hr as [| |?? ? wc w2 ? gc ? Hc H2|]; subst; clear Hr.
  inversion Hc; subst; clear Hc.
  inversion H2 as [| | |?? ? ? ? gb' Hb']; subst; clear H2.
  pose proof (matches_flat _ _ _ _ _ flat_A Ha') as ->.
  pose proof (matches_flat _ _ _ _ _ flat_B Hb') as ->.
  exists wa, w2. split_and!.
  - done.
  - eauto using matches_lang.
  - eauto using matches_lang.
  - rewrite lookup_insert_ne by done. by rewrite lookup_insert_eq.
  - rewrite lookup_insert_eq. f_equal. f_equal; simpl; lia.
Qed.

Lemma rule_expand g w1 w2 t :
  g !! 1 = Some (0, length w1) →
  g !! 2 = Some (S (length w1), S (length w1) + length w2) →
  expand repl g (w1 ++ amp :: w2 ++ t) = w1 ++ quest :: w2.
Proof.
  intros H1 H2. simpl. unfold group_text. rewrite H1, H2.
  rewrite Nat.sub_0_r, drop_0, take_app_length.
  replace (S (length w1) + length w2 - S (length w1)) with (length w2) by lia.
  replace (w1 ++ amp :: w2 ++ t) with ((w1 ++ [amp]) ++ w2 ++ t)
    by by rewrite <- app_assoc.
  rewrite (drop_app_length' (w1 ++ [amp])) by (rewrite length_app; simpl; lia).
  by rewrite take_app_length, app_nil_r.
Qed.

Lemma drop_rule (w1 w2 t : text) :
  drop (S (length w1 + length w2)) (w1 ++ amp :: w2 ++ t) = t.
Proof.
  replace (w1 ++ amp :: w2 ++ t) with ((w1 ++ amp :: w2) ++ t)
    by by rewrite <- app_assoc.
  apply drop_app_length'. rewrite length_app. simpl. lia.
Qed.

Lemma rule_sound s e g :
  match_at (rule_pat A B) s = Some (e, g) →
  ∃ w1 w2 t, s = w1 ++ amp :: w2 ++ t ∧ lang A w1 ∧ lang B w2
             ∧ e = S (length w1 + length w2)
             ∧ expand repl g s = w1 ++ quest :: w2.
Proof.
  intros (w & t & -> & Hm & ->)%match_at_sound.
  apply rule_matches_inv in Hm as (w1 & w2 & -> & HA & HB & H1 & H2).
  exists w1, w2, t. rewrite <- app_assoc. simpl. split_and!; try done.
  - rewrite length_app. simpl. lia.
  - by apply rule_expand.
Qed.

Lemma rule_complete w1 w2 t :
  lang A w1 → lang B w2 →
  is_Some (match_at (rule_pat A B) (w1 ++ amp :: w2 ++ t)).
Proof.
  intros HA HB.
  replace (w1 ++ amp :: w2 ++ t) with ((w1 ++ [amp] ++ w2) ++ t)
    by by rewrite <- !app_assoc.
  eapply match_at_complete. unfold rule_pat.
  econstructor.
  - constructor. by apply lang_matches.
  - econstructor; [apply (matches_str [amp])|].
    constructor. by apply lang_matches.
Qed.

(** The scan at a match: the separator becomes [?] and the scan goes on
    behind the match. *)
Lemma re_sub_rule_hit s e g :
  match_at (rule_pat A B) s = Some (e, g) →
  ∃ w1 w2 t, s = w1 ++ amp :: w2 ++ t ∧ lang A w1 ∧ lang B w2
             ∧ e = S (length w1 + length w2)
             ∧ re_sub (rule_pat A B) repl s
               = w1 ++ quest :: w2 ++ re_sub (rule_pat A B) repl t.
Proof.
  intros Hm.
  destruct (rule_sound _ _ _ Hm) as (w1 & w2 & t & -> & HA & HB & -> & Hex).
  exists w1, w2, t. split_and!; try done.
  rewrite (re_sub_hit _ _ _ _ _ Hm); [|lia|by destruct w1].
  by rewrite Hex, drop_rule, <- app_assoc.
Qed.

Lemma re_sub_rewrites s :
  rewrites A B s (re_sub (rule_pat A B) repl s).
Proof.
  remember (length s) as n eqn:Hn. revert s Hn.
  induction n as [n IH] using lt_wf_ind. intros s ->.
  destruct s as [|c s]; [constructor|].
  destruct (match_at (rule_pat A B) (c :: s)) as [[e g]|] eqn:Hm.
  - apply re_sub_rule_hit in Hm as (w1 & w2 & t & Hs & HA & HB & _ & ->).
    rewrite Hs. constructor; [done|done|].
    eapply IH; [|done]. rewrite Hs, !length_app. simpl.
    rewrite length_app. lia.
  - rewrite re_sub_miss by done. constructor. eapply IH; [|done]. simpl. lia.
Qed.

End Rule.

(** * What a rewriting can and cannot change *)

Section Rewrites.

Lemma amp_step_refl c : amp_step c c.
Proof. by left. Qed.

Lemma amp_step_trans c d e : amp_step c d → amp_step d e → amp_step c e.
Proof. unfold amp_step. intros [->|[-> ->]] [->|[? ->]]; auto. Qed.

Lemma amp_rel_refl (s : text) : Forall2 amp_step s s.
Proof. induction s; constructor; auto using amp_step_refl. Qed.

Lemma amp_rel_trans (s t u : text) :
  Forall2 amp_step s t → Forall2 amp_step t u → Forall2 amp_step s u.
Proof.
  intros H. revert u. induction H; intros u Hu; inversion Hu; subst.
  - constructor.
  - constructor; eauto using amp_step_trans.
Qed.

Lemma rewrites_amp_rel A B s o : rewrites A B s o → Forall2 amp_step s o.
Proof.
  induction 1 as [|c s o _ IH|w1 w2 s o _ _ _ IH].
  - constructor.
  - constructor; [apply amp_step_refl|done].
  - apply Forall2_app; [apply amp_rel_refl|].
    constructor; [by right|].
    apply Forall2_app; [apply amp_rel_refl|done].
Qed.

Lemma rewrites_length A B s o : rewrites A B s o → length o = length s.
Proof. intros H%rewrites_amp_rel. symmetry. by eapply Forall2_length. Qed.

(** A separator that was rewritten stood between a word of [A] and a
    word of [B]. *)
Lemma rewrites_changed A B s o i :
  rewrites A B s o → s !! i = Some amp → o !! i = Some quest →
  ∃ x w1 w2 y, s = x ++ w1 ++ amp :: w2 ++ y
               ∧ i = length x + length w1 ∧ lang A w1 ∧ lang B w2.
Proof.
  intros H. revert i.
  induction H as [|c s o _ IH|w1 w2 s o HA HB Hr IH]; intros i Hs Ho.
  - done.
  - destruct i as [|i]; simpl in *.
    + by assert (amp = quest) by congruence.
    + destruct (IH i Hs Ho) as (x & v1 & v2 & y & -> & -> & ? & ?).
      by exists (c :: x), v1, v2, y.
  - destruct (decide (i < length w1)) as [Hlt|Hge].
    { rewrite lookup_app_l in Hs, Ho by done.
      by assert (amp = quest) by congruence. }
    rewrite lookup_app_r in Hs, Ho by lia.
    destruct (i - length w1) as [|j] eqn:Hj; simpl in *.
    { exists [], w1, w2, s. split_and!; try done. simpl. lia. }
    destruct (decide (j < length w2)) as [Hlt|Hge2].
    { rewrite lookup_app_l in Hs, Ho by done.
      by assert (amp = quest) by congruence. }
    rewrite lookup_app_r in Hs, Ho by lia.
    destruct (IH _ Hs Ho) as (x & v1 & v2 & y & -> & Hi & ? & ?).
    exists (w1 ++ amp :: w2 ++ x), v1, v2, y. split_and!; try done.
    + by list_norm.
    + rewrite length_app. simpl. rewrite length_app. lia.
Qed.

(** Where the output shows no [?], the input was the same. *)
Lemma amp_rel_no_quest (a b : text) :
  Forall2 amp_step a b → quest ∉ b → a = b.
Proof.
  induction 1 as [|c d a b Hcd _ IH]; [done|].
  intros [Hd Hb]%not_elem_of_cons. f_equal; [|by apply IH].
  by destruct Hcd as [->|[_ ->]].
Qed.

Lemma amp_rel_pull (s x w y : text) :
  Forall2 amp_step s (x ++ w ++ y) → quest ∉ w →
  ∃ x0 y0, s = x0 ++ w ++ y0
           ∧ Forall2 amp_step x0 x ∧ Forall2 amp_step y0 y.
Proof.
  intros (x0 & r & Hx & Hr & ->)%Forall2_app_inv_r Hw.
  apply Forall2_app_inv_r in Hr as (w0 & y0 & Hw0 & Hy & ->).
  apply amp_rel_no_quest in Hw0 as ->; [|done]. eauto.
Qed.

(** A [?] stays a [?]. *)
Lemma amp_rel_quest (s o : text) i :
  Forall2 amp_step s o → s !! i = Some quest → o !! i = Some quest.
Proof.
  intros H Hs.
  destruct (Forall2_lookup_l _ _ _ _ _ H Hs) as (d & -> & [->|[? _]]); done.
Qed.

(** Where the input shows no [&], the output is the same. *)
Lemma amp_rel_no_amp (a b : text) :
  Forall2 amp_step a b → amp ∉ a → b = a.
Proof.
  induction 1 as [|c d a b Hcd _ IH]; [done|].
  intros [Hd Hb]%not_elem_of_cons. f_equal; [|by apply IH].
  by destruct Hcd as [->|[-> _]].
Qed.

Lemma amp_rel_keep (a m b u : text) :
  Forall2 amp_step (a ++ m ++ b) u → amp ∉ m →
  ∃ a' b', u = a' ++ m ++ b'
           ∧ Forall2 amp_step a a' ∧ Forall2 amp_step b b'.
Proof.
  intros (a' & r & Ha & Hr & ->)%Forall2_app_inv_l Hm.
  apply Forall2_app_inv_l in Hr as (m' & b' & Hm' & Hb & ->).
  apply amp_rel_no_amp in Hm' as ->; [|done]. eauto.
Qed.

(** Two readings of a text that put a separator at the same offset agree
    on what stands before and behind it. *)
Lemma separator_align (a m n b x w1 w2 y : text) :
  a ++ m ++ amp :: n ++ b = x ++ w1 ++ amp :: w2 ++ y →
  length x + length w1 = length a + length m →
  x ++ w1 = a ++ m ∧ w2 ++ y = n ++ b.
Proof.
  rewrite !(app_assoc _ _ (amp :: _)). intros Heq Hlen.
  apply app_inj_1 in Heq as [-> [=]]; [done|].
  rewrite !length_app. lia.
Qed.

End Rewrites.

Section Keep.

Variables A B : regex.
Hypothesis flat_A : flat A = true.
Hypothesis flat_B : flat B = true.

(** A separator that stands in no occurrence of the rule is kept, with
    the text around it. *)
Lemma rule_keeps a m n b :
  amp ∉ m → amp ∉ n →
  (∀ x w1 w2 y,
     a ++ m ++ amp :: n ++ b = x ++ w1 ++ amp :: w2 ++ y →
     length x + length w1 = length a + length m →
     lang A w1 → lang B w2 → False) →
  ∃ a' b', re_sub (rule_pat A B) repl (a ++ m ++ amp :: n ++ b)
           = a' ++ m ++ amp :: n ++ b'
           ∧ Forall2 amp_step a a' ∧ Forall2 amp_step b b'.
Proof.
  intros Hm Hn Hocc.
  pose proof (re_sub_rewrites A B flat_A flat_B
                (a ++ m ++ amp :: n ++ b)) as Hrw.
  pose proof (rewrites_amp_rel _ _ _ _ Hrw) as Hrel.
  apply Forall2_app_inv_l in Hrel as (a' & r & Ha & Hr & Ho).
  apply Forall2_app_inv_l in Hr as (m' & r' & Hm' & Hr & ->).
  apply Forall2_cons_inv_l in Hr as (c & r'' & Hc & Hr & ->).
  apply Forall2_app_inv_l in Hr as (n' & b' & Hn' & Hb & ->).
  apply amp_rel_no_amp in Hm' as ->; [|done].
  apply amp_rel_no_amp in Hn' as ->; [|done].
  destruct Hc as [->|[_ ->]]; [by exists a', b'|exfalso].
  destruct (rewrites_changed _ _ _ _ (length a + length m) Hrw)
    as (x & w1 & w2 & y & Heq & Hlen & HA & HB).
  - rewrite app_assoc, <- length_app. by apply list_lookup_middle.
  - rewrite Ho, app_assoc, (Forall2_length _ _ _ Ha), <- length_app.
    by apply list_lookup_middle.
  - eapply Hocc; eauto.
Qed.

End Keep.

(** * The words of the rules *)

Ltac eval_lit :=
  repeat match goal with
  | |- context [lit ?s] =>
      let v := eval vm_compute in (lit s) in change (lit s) with v
  | H : context [lit ?s] |- _ =>
      let v := eval vm_compute in (lit s) in change (lit s) with v in H
  end.

(** A character that does not occur in a literal. *)
Ltac not_in_lit :=
  eval_lit; rewrite !not_elem_of_cons;
  split_and!; try done; apply not_elem_of_nil.

Section Words.

Lemma lang_str_inv l w : lang (Str l) w ↔ w = l.
Proof. split; [by inversion 1|intros ->; constructor]. Qed.

Lemma lang_digits_inv w : lang (Plus Digit) w ↔ w ≠ [] ∧ digits w.
Proof. split; [by inversion 1|intros [??]; by constructor]. Qed.

Lemma NoneOf_quote c : in_class (NoneOf quote) c = true ↔ c ≠ quote.
Proof.
  simpl. rewrite negb_true_iff. split.
  - by intros ?%N.eqb_neq.
  - by intros ?%N.eqb_neq.
Qed.

Lemma lang_unquoted_inv w :
  lang (Plus (NoneOf quote)) w ↔ w ≠ [] ∧ Forall (λ c, c ≠ quote) w.
Proof.
  split.
  - inversion 1; subst. split; [done|].
    eapply Forall_impl; [done|]. intros c. apply NoneOf_quote.
  - intros [? Hw]. constructor; [done|].
    eapply Forall_impl; [done|]. intros c. apply NoneOf_quote.
Qed.

Lemma lang_light_path path w :
  lang (light_path path) w ↔
  ∃ ds, w = lit "l9" ++ ds ++ path ∧ ds ≠ [] ∧ digits ds.
Proof.
  unfold light_path. split.
  - intros H. inversion H as [| |???? H1 H2|]; subst; clear H.
    inversion H2 as [| |???? H3 H4|]; subst; clear H2.
    apply lang_str_inv in H1 as ->. apply lang_str_inv in H4 as ->.
    apply lang_digits_inv in H3 as [??]. eauto.
  - intros (ds & -> & ? & ?). repeat constructor; done.
Qed.

Lemma lang_record_path w :
  lang record_path w ↔
  ∃ ds x, w = lit "p" ++ ds ++ lit "/get-" ++ x
          ∧ ds ≠ [] ∧ digits ds ∧ x ≠ [] ∧ Forall (λ c, c ≠ quote) x.
Proof.
  unfold record_path. split.
  - intros H. inversion H as [| |???? H1 H2|]; subst; clear H.
    inversion H2 as [| |???? H3 H4|]; subst; clear H2.
    inversion H4 as [| |???? H5 H6|]; subst; clear H4.
    apply lang_str_inv in H1 as ->. apply lang_str_inv in H5 as ->.
    apply lang_digits_inv in H3 as [??].
    apply lang_unquoted_inv in H6 as [??]. eauto 10.
  - intros (ds & x & -> & ? & ? & ? & ?).
    constructor; [constructor|]. constructor; [by constructor|].
    constructor; [constructor|]. by apply lang_unquoted_inv.
Qed.

(** A run of digits ends where the first other character stands. *)
Lemma digit_run_unique d1 d2 c1 c2 (r1 r2 : text) :
  digits d1 → digits d2 → is_decimal c1 = false → is_decimal c2 = false →
  d1 ++ c1 :: r1 = d2 ++ c2 :: r2 → d1 = d2 ∧ r1 = r2.
Proof.
  intros H1. revert d2.
  induction H1 as [|a d1 Ha _ IH]; intros d2 H2 Hc1 Hc2 Heq.
  - destruct H2 as [|b d2 Hb _]; simpl in Heq.
    + by injection Heq as _ ->.
    + injection Heq as -> _. congruence.
  - destruct H2 as [|b d2 Hb H2]; simpl in Heq.
    + injection Heq as -> _. congruence.
    + injection Heq as -> Heq.
      destruct (IH d2 H2 Hc1 Hc2 Heq) as [-> ->]. done.
Qed.

Lemma app_split_le (x1 x2 y1 y2 : text) :
  x1 ++ x2 = y1 ++ y2 → length x1 ≤ length y1 →
  ∃ l, y1 = x1 ++ l ∧ x2 = l ++ y2.
Proof.
  revert y1. induction x1 as [|a x1 IH]; intros y1 Heq Hle; simpl in *.
  - eauto.
  - destruct y1 as [|b y1]; simpl in *; [lia|].
    injection Heq as -> Heq.
    destruct (IH y1 Heq) as (l & -> & ->); [lia|]. eauto.
Qed.

End Words.

(** * The four light-strip rules *)

Section Light.

Variables path param : text.
Hypothesis ok : light_ok path param = true.

Local Abbreviation P := (light_pat path param).

Lemma light_flat : flat (light_path path) = true ∧ flat (Str param) = true.
Proof. done. Qed.

Lemma light_path_head : ∃ c p, path = c :: p ∧ is_decimal c = false.
Proof.
  unfold light_ok in ok. apply andb_prop in ok as [H _].
  apply andb_prop in H as [H _].
  destruct path as [|c p]; [done|]. exists c, p.
  simpl in H. by apply negb_true_iff in H.
Qed.

Lemma light_no_restart : no_restart (path ++ amp :: param) = true.
Proof.
  unfold light_ok in ok. apply andb_prop in ok as [H _].
  by apply andb_prop in H as [_ H].
Qed.

Lemma light_no_quest : (quest ∉ path) ∧ (quest ∉ param).
Proof.
  unfold light_ok in ok. apply andb_prop in ok as [_ H].
  rewrite forallb_forall in H.
  split; intros Hin%list_elem_of_In.
  - specialize (H quest). rewrite N.eqb_refl in H.
    apply Is_true_true in H; [done|]. apply in_or_app; auto.
  - specialize (H quest). rewrite N.eqb_refl in H.
    apply Is_true_true in H; [done|]. apply in_or_app; auto.
Qed.

(** The word of the rule at a given place is unique. *)
Lemma light_word_unique w1 w1' (t t' : text) :
  lang (light_path path) w1 → lang (light_path path) w1' →
  w1 ++ amp :: param ++ t = w1' ++ amp :: param ++ t' →
  w1 = w1' ∧ t = t'.
Proof.
  intros (ds & -> & _ & Hds)%lang_light_path.
  intros (ds' & -> & _ & Hds')%lang_light_path.
  destruct light_path_head as (c & p & Hp & Hc). rewrite Hp.
  list_norm. intros Heq%app_inv_head.
  apply digit_run_unique in Heq as [-> Heq]; [|done..].
  split; [done|]. apply app_inv_head in Heq. injection Heq as Heq.
  by apply app_inv_head in Heq.
Qed.

(** At an occurrence the scan rewrites the separator and goes on behind
    the occurrence. *)
Lemma light_sub_here w1 t :
  lang (light_path path) w1 →
  re_sub P repl (w1 ++ amp :: param ++ t)
  = w1 ++ quest :: param ++ re_sub P repl t.
Proof.
  intros Hw. destruct light_flat as [FA FB]. unfold light_pat.
  destruct (rule_complete _ _ FA FB w1 param t Hw) as [[e g] Hm];
    [constructor|].
  apply (re_sub_rule_hit _ _ FA FB) in Hm
    as (w1' & w2 & t' & Heq & Hw' & ->%lang_str_inv & _ & ->).
  apply light_word_unique in Heq as [-> ->]; done.
Qed.

Lemma light_match_mono a b :
  is_Some (match_at P a) → is_Some (match_at P (a ++ b)).
Proof.
  destruct light_flat as [FA FB]. unfold light_pat. intros [[e g] Hm].
  apply (rule_sound _ _ FA FB) in Hm as (w1 & w2 & t & -> & ? & ? & _).
  list_norm. by apply rule_complete.
Qed.

Lemma no_restart_lookup (l : text) j :
  no_restart l = true → l !! j = Some 108%N →
  ∃ c, l !! S j = Some c ∧ c ≠ 57%N.
Proof.
  revert j. induction l as [|c l IH]; intros j Hl Hj; [done|].
  simpl in Hl. apply andb_prop in Hl as [Hc Hl].
  destruct j as [|j]; simpl in *.
  - injection Hj as ->. simpl in Hc. destruct l as [|d l]; [done|].
    exists d. split; [done|]. apply negb_true_iff in Hc. by apply N.eqb_neq.
  - by apply IH.
Qed.

(** No occurrence starts inside a match. *)
Lemma light_no_overlap w1 w1' a (t t' : text) :
  lang (light_path path) w1 → lang (light_path path) w1' →
  w1' ++ amp :: param ++ t' = a ++ w1 ++ amp :: param ++ t →
  a ≠ [] → S (length w1' + length param) ≤ length a.
Proof.
  intros (ds & -> & _ & Hds)%lang_light_path.
  intros (ds' & -> & _ & Hds')%lang_light_path. eval_lit. list_norm.
  intros Heq Ha. apply Nat.nlt_ge. intros Hlt.
  assert (H0 : (a ++ 108%N :: 57%N :: ds ++ path ++ amp :: param ++ t)
                 !! length a = Some 108%N) by by apply list_lookup_middle.
  assert (H1 : (a ++ 108%N :: 57%N :: ds ++ path ++ amp :: param ++ t)
                 !! S (length a) = Some 57%N).
  { rewrite lookup_app_r by lia.
    by replace (S (length a) - length a) with 1 by lia. }
  rewrite <- Heq in H0, H1. simpl in Hlt. rewrite length_app in Hlt.
  destruct (length a) as [|[|n]] eqn:Hn.
  { by destruct a. }
  { done. }
  simpl in H0, H1.
  destruct (decide (n < length ds')) as [Hn'|Hn'].
  { rewrite lookup_app_l in H0 by done.
    by apply (Forall_lookup_1 _ _ _ _ Hds') in H0. }
  rewrite lookup_app_r in H0, H1 by lia.
  replace (S n - length ds') with (S (n - length ds')) in H1 by lia.
  replace (path ++ amp :: param ++ t')
    with ((path ++ amp :: param) ++ t') in H0, H1 by by list_norm.
  assert (Hj : n - length ds' < length (path ++ amp :: param)).
  { rewrite length_app. simpl. lia. }
  rewrite lookup_app_l in H0 by done.
  destruct (no_restart_lookup _ _ light_no_restart H0) as (c & Hc & Hne).
  rewrite lookup_app_l in H1 by by eapply lookup_lt_Some.
  congruence.
Qed.

Lemma light_word_no_quest w1 : lang (light_path path) w1 → quest ∉ w1.
Proof.
  intros (ds & -> & _ & Hds)%lang_light_path. eval_lit.
  rewrite !not_elem_of_app, !not_elem_of_cons. split_and!; try done.
  - apply not_elem_of_nil.
  - intros Hin. by apply (proj1 (Forall_forall _ _) Hds) in Hin.
  - apply light_no_quest.
Qed.

(** Every occurrence of the rule is rewritten, whatever stands around
    it. *)
Lemma light_sub_app a w1 b :
  lang (light_path path) w1 →
  re_sub P repl (a ++ w1 ++ amp :: param ++ b)
  = re_sub P repl a ++ w1 ++ quest :: param ++ re_sub P repl b.
Proof.
  intros Hw. remember (length a) as n eqn:Hn. revert a Hn.
  induction n as [n IH] using lt_wf_ind. intros a ->.
  destruct a as [|c a]; [by apply light_sub_here|].
  destruct light_flat as [FA FB].
  destruct (match_at P ((c :: a) ++ w1 ++ amp :: param ++ b))
    as [[e g]|] eqn:Hm.
  - apply (re_sub_rule_hit _ _ FA FB) in Hm
      as (w1' & w2 & t' & Heq & Hw' & ->%lang_str_inv & _ & Hsub).
    pose proof (light_no_overlap _ _ _ _ _ Hw Hw' (eq_sym Heq)) as Hle.
    destruct (app_split_le (w1' ++ amp :: param) t' (c :: a)
                (w1 ++ amp :: param ++ b)) as (l & Ha & ->).
    { by list_norm. }
    { rewrite length_app. specialize (Hle ltac:(done)). simpl in *. lia. }
    rewrite Ha. list_norm. rewrite !light_sub_here by done.
    list_norm. do 3 f_equal. eapply IH; [|done].
    rewrite Ha, !length_app. simpl. lia.
  - assert (Hm' : match_at P (c :: a) = None).
    { destruct (match_at P (c :: a)) eqn:Hm'; [|done].
      destruct (light_match_mono (c :: a) (w1 ++ amp :: param ++ b))
        as [? Hs]; [done|congruence]. }
    list_norm. rewrite !re_sub_miss by done. list_norm. f_equal.
    eapply IH; [|done]. simpl. lia.
Qed.

(** Once the rule has run, and whatever separators are rewritten
    afterwards, the rule matches nowhere. *)
Lemma light_once s u :
  Forall2 amp_step (re_sub P repl s) u → re_search P u = false.
Proof.
  intros Hu. destruct (re_search P u) eqn:E; [exfalso|done].
  destruct light_flat as [FA FB].
  apply re_search_true in E as (x & y & -> & [[e g] Hm]).
  apply (rule_sound _ _ FA FB) in Hm
    as (w1 & w2 & t & -> & Hw & ->%lang_str_inv & _).
  assert (Hs : Forall2 amp_step s (x ++ (w1 ++ amp :: param) ++ t)).
  { eapply amp_rel_trans; [|by list_norm].
    eapply rewrites_amp_rel, (re_sub_rewrites _ _ FA FB). }
  apply amp_rel_pull in Hs as (x0 & t0 & -> & Hx & Ht).
  2:{ rewrite not_elem_of_app, not_elem_of_cons.
      split_and!; [by apply light_word_no_quest|done|apply light_no_quest]. }
  revert Hu. list_norm. rewrite light_sub_app by done.
  intros [_ Hu]%Forall2_app_inv.
  2:{ etrans; [apply (rewrites_length _ _ _ _ (re_sub_rewrites _ _ FA FB x0))|].
      by eapply Forall2_length. }
  apply Forall2_app_inv in Hu as [_ Hu]; [|done].
  apply Forall2_cons_1 in Hu as [[?|[? _]] _]; done.
Qed.

End Light.

(** * The start-date rule *)

Section StartDate.

Local Abbreviation P5 := (rule_pat record_path (Str (lit "start_date="))).

Lemma record_flat :
  flat record_path = true ∧ flat (Str (lit "start_date=")) = true.
Proof. done. Qed.

Lemma sd_sep_length : length sd_sep = 12.
Proof. done. Qed.

Lemma sd_sep_no_quote : quote ∉ sd_sep.
Proof. unfold sd_sep. not_in_lit. Qed.

Lemma sd_sep_no_quest : quest ∉ sd_sep.
Proof. unfold sd_sep. not_in_lit. Qed.

Lemma digits_not c ds : is_decimal c = false → digits ds → c ∉ ds.
Proof.
  intros Hc Hds Hin. apply (proj1 (Forall_forall _ _) Hds) in Hin. congruence.
Qed.

Lemma record_word_no_quote w : lang record_path w → quote ∉ w.
Proof.
  intros (ds & x & -> & _ & Hds & _ & Hx)%lang_record_path. eval_lit.
  rewrite !not_elem_of_app, !not_elem_of_cons. split_and!; try done.
  - apply not_elem_of_nil.
  - by apply digits_not.
  - apply not_elem_of_nil.
  - intros Hin. by apply (proj1 (Forall_forall _ _) Hx) in Hin.
Qed.

Lemma amp_rel_no_quote (a b : text) :
  Forall2 amp_step a b → quote ∉ b → quote ∉ a.
Proof.
  induction 1 as [|c d a b Hcd _ IH]; [done|].
  rewrite !not_elem_of_cons. intros [Hd Hb]. split; [|by apply IH].
  destruct Hcd as [->|[-> _]]; done.
Qed.

(** A word of the record path stays one when some of its [?] are turned
    back into [&]. *)
Lemma record_word_pull w0 w :
  lang record_path w → Forall2 amp_step w0 w → lang record_path w0.
Proof.
  intros (ds & x & -> & Hne & Hds & Hx & Hq)%lang_record_path.
  intros (p0 & r & Hp & Hr & ->)%Forall2_app_inv_r.
  apply Forall2_app_inv_r in Hr as (ds0 & r' & Hds0 & Hr & ->).
  apply Forall2_app_inv_r in Hr as (g0 & x0 & Hg & Hx0 & ->).
  apply amp_rel_no_quest in Hp as ->.
  2:{ not_in_lit. }
  apply amp_rel_no_quest in Hds0 as ->; [|by apply digits_not].
  apply amp_rel_no_quest in Hg as ->.
  2:{ not_in_lit. }
  apply lang_record_path. exists ds, x0. split_and!; try done.
  - intros ->. apply Forall2_nil_inv_l in Hx0. done.
  - apply Forall_forall. intros c Hc ->.
    eapply amp_rel_no_quote; [done| |done].
    intros Hin. by apply (proj1 (Forall_forall _ _) Hq) in Hin.
Qed.

(** [&start_date=] does not overlap itself. *)
Lemma sd_no_self_overlap (u1 v1 u2 v2 : text) :
  u1 ++ sd_sep ++ v1 = u2 ++ sd_sep ++ v2 →
  length u1 < length u2 → length u1 + 12 ≤ length u2.
Proof.
  intros Heq Hlt. apply Nat.nlt_ge. intros Hk.
  assert (H : (u2 ++ sd_sep ++ v2) !! length u2 = Some amp)
    by by apply list_lookup_middle.
  rewrite <- Heq, lookup_app_r, lookup_app_l in H
    by (rewrite ?sd_sep_length; lia).
  remember (length u2 - length u1) as k eqn:Ek.
  assert (0 < k < 12) as [H0 H12] by lia. clear -H H0 H12.
  do 12 (destruct k as [|k]; [done || lia|]). lia.
Qed.

(** Two different occurrences in a stretch without double quote make
    the text crowded. *)
Lemma two_sd_crowded (s u1 v1 u2 v2 : text) :
  s = u1 ++ sd_sep ++ v1 → s = u2 ++ sd_sep ++ v2 →
  length u1 < length u2 →
  (∀ i, length u1 ≤ i < length u2 → s !! i ≠ Some quote) →
  crowded s.
Proof.
  intros H1 H2 Hlt Hwin.
  assert (Hle : length u1 + 12 ≤ length u2).
  { eapply sd_no_self_overlap; [|done]. by rewrite <- H1, <- H2. }
  destruct (app_split_le (u1 ++ sd_sep) v1 u2 (sd_sep ++ v2))
    as (b & Hu2 & Hv1).
  { list_norm. by rewrite <- H1, <- H2. }
  { rewrite length_app, sd_sep_length. lia. }
  exists u1, b, v2. split; [by rewrite H1, Hv1|].
  intros (j & Hj)%list_elem_of_lookup.
  apply (Hwin (length u1 + 12 + j)).
  - apply lookup_lt_Some in Hj. rewrite Hu2, !length_app, sd_sep_length. lia.
  - rewrite H2, Hu2. list_norm.
    rewrite lookup_app_r, lookup_app_r, lookup_app_l
      by (rewrite ?sd_sep_length; try lia;
          apply lookup_lt_Some in Hj; lia).
    rewrite <- Hj. f_equal. rewrite sd_sep_length. lia.
Qed.

Lemma crowded_app (x s : text) : crowded s → crowded (x ++ s).
Proof.
  intros (a & b & c & -> & Hb). exists (x ++ a), b, c. by list_norm.
Qed.

Lemma crowded_pull (s t : text) :
  Forall2 amp_step s t → crowded t → crowded s.
Proof.
  intros H (a & b & c & -> & Hb).
  apply amp_rel_pull in H as (a0 & r & -> & _ & Hr);
    [|apply sd_sep_no_quest].
  apply Forall2_app_inv_r in Hr as (b0 & r' & Hb0 & Hr & ->).
  change (Forall2 amp_step r' ([] ++ sd_sep ++ c)) in Hr.
  apply amp_rel_pull in Hr as (e & c0 & -> & ->%Forall2_nil_inv_r & _);
    [|apply sd_sep_no_quest].
  exists a0, b0, c0. split; [done|]. by eapply amp_rel_no_quote.
Qed.

Lemma part_no_quote (x w y : text) i :
  quote ∉ w → length x ≤ i < length x + length w →
  (x ++ w ++ y) !! i ≠ Some quote.
Proof.
  intros Hw Hi. rewrite lookup_app_r, lookup_app_l by lia.
  intros H. by apply list_elem_of_lookup_2 in H.
Qed.

(** In a text that is not crowded, the separator of every occurrence of
    the rule is rewritten. *)
Lemma sd_hit x w1 z :
  lang record_path w1 → ¬ crowded (x ++ w1 ++ sd_sep ++ z) →
  re_sub P5 repl (x ++ w1 ++ sd_sep ++ z) !! (length x + length w1)
  = Some quest.
Proof.
  intros Hw. remember (length x) as n eqn:Hn. revert x Hn.
  induction n as [n IH] using lt_wf_ind. intros x -> Hnc.
  destruct record_flat as [FA FB].
  destruct (match_at P5 (x ++ w1 ++ sd_sep ++ z)) as [[e g]|] eqn:Hm.
  - apply (re_sub_rule_hit _ _ FA FB) in Hm
      as (w1' & w2 & t' & Heq & Hw' & ->%lang_str_inv & _ & ->).
    change (w1' ++ amp :: lit "start_date=" ++ t')
      with (w1' ++ sd_sep ++ t') in Heq.
    destruct (decide (length w1' = length x + length w1)) as [<-|Hne].
    { by apply list_lookup_middle. }
    destruct (decide (length w1' + 12 ≤ length x)) as [Hle|Hgt].
    { destruct (app_split_le (w1' ++ sd_sep) t' x (w1 ++ sd_sep ++ z))
        as (l & Hx & ->).
      { by list_norm. }
      { rewrite length_app, sd_sep_length. lia. }
      replace (w1' ++ quest :: lit "start_date="
               ++ re_sub P5 repl (l ++ w1 ++ sd_sep ++ z))
        with ((w1' ++ quest :: lit "start_date=")
              ++ re_sub P5 repl (l ++ w1 ++ sd_sep ++ z)) by by list_norm.
      rewrite lookup_app_r by (rewrite Hx, !length_app; simpl; lia).
      replace (length x + length w1
               - length (w1' ++ quest :: lit "start_date="))
        with (length l + length w1)
        by (rewrite Hx, !length_app; simpl; lia).
      eapply IH; [|done|].
      - rewrite Hx, !length_app, sd_sep_length. lia.
      - intros Hc. apply Hnc. rewrite Hx, <- (app_assoc (w1' ++ sd_sep)).
        by apply crowded_app. }
    exfalso. apply Hnc.
    assert (W1 : ∀ i, i < length w1' + 12 →
                      (x ++ w1 ++ sd_sep ++ z) !! i ≠ Some quote).
    { intros i Hi. rewrite Heq, (app_assoc w1').
      apply (part_no_quote [] (w1' ++ sd_sep) t').
      - rewrite not_elem_of_app.
        split; [by apply record_word_no_quote|apply sd_sep_no_quote].
      - simpl. rewrite length_app, sd_sep_length. lia. }
    assert (W2 : ∀ i, length x ≤ i < length x + length w1 + 12 →
                      (x ++ w1 ++ sd_sep ++ z) !! i ≠ Some quote).
    { intros i Hi. rewrite (app_assoc w1).
      apply part_no_quote.
      - rewrite not_elem_of_app.
        split; [by apply record_word_no_quote|apply sd_sep_no_quote].
      - rewrite length_app, sd_sep_length. lia. }
    destruct (decide (length w1' < length x + length w1)) as [Hlt|Hge].
    + eapply (two_sd_crowded _ w1' t' (x ++ w1) z); [done|by list_norm|..].
      * rewrite length_app. lia.
      * rewrite length_app. intros i Hi.
        destruct (decide (i < length w1' + 12)); [by apply W1|].
        apply W2. lia.
    + eapply (two_sd_crowded _ (x ++ w1) z w1' t'); [by list_norm|done|..].
      * rewrite length_app. lia.
      * rewrite length_app. intros i Hi. apply W1. lia.
  - destruct x as [|c x].
    + destruct (rule_complete _ _ FA FB w1 (lit "start_date=") z Hw)
        as [? Hs]; [constructor|].
      change (w1 ++ amp :: lit "start_date=" ++ z)
        with ([] ++ w1 ++ sd_sep ++ z) in Hs. congruence.
    + list_norm. rewrite re_sub_miss by done. simpl.
      eapply IH; [|done|]; [simpl; lia|].
      intros Hc. apply Hnc. by apply (crowded_app [c]).
Qed.

(** Once the rule has run on a text that is not crowded, and whatever
    separators are rewritten afterwards, the rule matches nowhere. *)
Lemma sd_once s u :
  ¬ crowded s → Forall2 amp_step (re_sub P5 repl s) u →
  re_search P5 u = false.
Proof.
  intros Hnc Hu. destruct (re_search P5 u) eqn:E; [exfalso|done].
  destruct record_flat as [FA FB].
  apply re_search_true in E as (x & y & -> & [[e g] Hm]).
  apply (rule_sound _ _ FA FB) in Hm
    as (w1 & w2 & t & -> & Hw & ->%lang_str_inv & _).
  change (w1 ++ amp :: lit "start_date=" ++ t)
    with (w1 ++ sd_sep ++ t) in Hu.
  assert (Hs : Forall2 amp_step s (x ++ w1 ++ sd_sep ++ t)).
  { eapply amp_rel_trans; [|done].
    eapply rewrites_amp_rel, (re_sub_rewrites _ _ FA FB). }
  apply Forall2_app_inv_r in Hs as (x0 & r & Hx & Hr & ->).
  apply Forall2_app_inv_r in Hr as (w0 & r' & Hw0 & Hr & ->).
  change (Forall2 amp_step r' ([] ++ sd_sep ++ t)) in Hr.
  apply amp_rel_pull in Hr as (e' & t0 & -> & ->%Forall2_nil_inv_r & _);
    [|apply sd_sep_no_quest].
  pose proof (record_word_pull _ _ Hw Hw0) as Hw0'.
  pose proof (sd_hit x0 w0 t0 Hw0' Hnc) as Hq.
  apply (amp_rel_quest _ _ _ Hu) in Hq.
  rewrite (Forall2_length _ _ _ Hx), (Forall2_length _ _ _ Hw0) in Hq.
  rewrite app_assoc, <- length_app in Hq.
  unfold sd_sep in Hq. eval_lit.
  by rewrite <- app_comm_cons, list_lookup_middle in Hq.
Qed.

Lemma spaced_cons seen c s :
  spaced seen (c :: s) =
  if (c =? quote)%N then spaced false s
  else match strip sd_sep (c :: s) with
       | Some _ => negb seen && spaced true s
       | None => spaced seen s
       end.
Proof. done. Qed.

Lemma spaced_seen (m c : text) :
  quote ∉ m → spaced true (m ++ sd_sep ++ c) = false.
Proof.
  induction m as [|c0 m IH].
  - intros _. done.
  - intros [Hc Hm]%not_elem_of_cons. list_norm. rewrite spaced_cons.
    apply N.eqb_neq in Hc. rewrite N.eqb_sym, Hc.
    destruct (strip sd_sep _); [done|]. by apply IH.
Qed.

(** The decision procedure is sound. *)
Lemma spaced_sound t : spaced false t = true → ¬ crowded t.
Proof.
  intros Hs (a & b & c & -> & Hb).
  enough (∀ seen, spaced seen (a ++ sd_sep ++ b ++ sd_sep ++ c) = false)
    as H by (rewrite H in Hs; done).
  clear Hs. induction a as [|c0 a IH]; intros seen.
  - change (spaced seen (amp :: lit "start_date=" ++ b ++ sd_sep ++ c)
            = false).
    rewrite spaced_cons.
    change (amp :: lit "start_date=" ++ b ++ sd_sep ++ c)
      with (sd_sep ++ b ++ sd_sep ++ c).
    rewrite strip_app. change (amp =? quote)%N with false. cbv iota.
    rewrite app_assoc, spaced_seen; [by rewrite andb_false_r|].
    rewrite not_elem_of_app. split; [not_in_lit|done].
  - list_norm. rewrite spaced_cons.
    destruct (c0 =? quote)%N; [apply IH|].
    destruct (strip sd_sep _); [|apply IH].
    by rewrite IH, andb_false_r.
Qed.

End StartDate.

(** * The matches the scan replaces *)

Section Spans.

Lemma spans_skip r pos n s :
  spans_from r pos n s = spans_from r (pos + n) 0 (drop n s).
Proof.
  revert pos s. induction n as [|n IH]; intros pos s.
  - by rewrite Nat.add_0_r.
  - destruct s as [|c s]; [done|]. cbn [spans_from drop].
    rewrite IH. f_equal. lia.
Qed.

Lemma spans_miss r pos c s :
  match_at r (c :: s) = None →
  spans_from r pos 0 (c :: s) = spans_from r (S pos) 0 s.
Proof. cbn [spans_from]. by intros ->. Qed.

Lemma spans_hit r pos s e g :
  match_at r s = Some (e, g) → 0 < e → s ≠ [] →
  spans_from r pos 0 s = (pos, pos + e) :: spans_from r (pos + e) 0 (drop e s).
Proof.
  destruct s as [|c s]; [done|]. intros Hm He _.
  cbn [spans_from]. rewrite Hm, spans_skip.
  destruct e; [lia|]. cbn [drop]. rewrite Nat.sub_succ, Nat.sub_0_r.
  do 2 f_equal. lia.
Qed.

(** Where no match starts, the scan copies. *)
Lemma re_sub_gap r t gap s :
  (∀ i, i < length gap → match_at r (drop i (gap ++ s)) = None) →
  re_sub r t (gap ++ s) = gap ++ re_sub r t s.
Proof.
  induction gap as [|c gap IH]; intros H; [done|]. list_norm.
  rewrite re_sub_miss by (apply (H 0); simpl; lia).
  f_equal. apply IH. intros i Hi. apply (H (S i)). simpl. lia.
Qed.

Lemma slice_ext (s t : text) b e :
  (∀ i, b ≤ i < e → s !! i = t !! i) → slice b e s = slice b e t.
Proof.
  intros H. unfold slice. apply list_eq. intros i.
  rewrite !lookup_take, !lookup_drop. case_decide; [|done].
  apply H. lia.
Qed.

Variables A B : regex.
Hypothesis flat_A : flat A = true.
Hypothesis flat_B : flat B = true.

(** What the scan changes lies inside a match it replaced. *)
Lemma changed_in_span s pos i :
  re_sub (rule_pat A B) repl s !! i ≠ s !! i →
  ∃ m, m ∈ spans_from (rule_pat A B) pos 0 s ∧ m.1 ≤ pos + i < m.2.
Proof.
  remember (length s) as n eqn:Hn. revert s Hn pos i.
  induction n as [n IH] using lt_wf_ind. intros s -> pos i.
  destruct s as [|c s]; [done|].
  destruct (match_at (rule_pat A B) (c :: s)) as [[e g]|] eqn:Hm.
  - pose proof Hm as Hm'.
    apply (re_sub_rule_hit _ _ flat_A flat_B) in Hm'
      as (w1 & w2 & t & Hs & _ & _ & He & ->).
    rewrite (spans_hit _ _ _ _ _ Hm) by (done || lia).
    rewrite Hs, He, drop_rule.
    destruct (decide (i < e)) as [Hlt|Hge].
    { intros _. exists (pos, pos + S (length w1 + length w2)).
      split; [left|simpl; lia]. }
    replace (w1 ++ quest :: w2 ++ re_sub (rule_pat A B) repl t)
      with ((w1 ++ quest :: w2) ++ re_sub (rule_pat A B) repl t)
      by by list_norm.
    replace (w1 ++ amp :: w2 ++ t) with ((w1 ++ amp :: w2) ++ t)
      by by list_norm.
    rewrite !lookup_app_r by (rewrite length_app; simpl; lia).
    replace (length (w1 ++ quest :: w2)) with e
      by (rewrite length_app; simpl; lia).
    replace (length (w1 ++ amp :: w2)) with e
      by (rewrite length_app; simpl; lia).
    intros Hi.
    destruct (IH (length t)) with (s := t) (pos := pos + e) (i := i - e)
      as (m & Hin & Hm1); [|done|done|].
    { rewrite Hs, !length_app. simpl. rewrite length_app. lia. }
    exists m. rewrite <- He. split; [by right|]. lia.
  - rewrite re_sub_miss, spans_miss by done.
    destruct i as [|i]; [done|]. simpl. intros Hi.
    destruct (IH (length s)) with (s := s) (pos := S pos) (i := i)
      as (m & Hin & Hm1); [simpl; lia|done|done|].
    exists m. split; [done|lia].
Qed.

End Spans.

(** * Encodings and line ends *)

(** Arithmetic with quotients and remainders. *)
Ltac dlia := zify; Z.to_euclidean_division_equations; lia.

(** Decide the comparisons in the goal from the hypotheses. *)
Ltac settle_tests :=
  repeat match goal with
    | |- context [(?a <? ?b)%N] =>
        first [ rewrite (proj2 (N.ltb_lt a b)) by dlia
              | rewrite (proj2 (N.ltb_ge a b)) by dlia ]
    | |- context [(?a <=? ?b)%N] =>
        first [ rewrite (proj2 (N.leb_le a b)) by dlia
              | rewrite (proj2 (N.leb_gt a b)) by dlia ]
    | |- context [(?a =? ?b)%N] =>
        first [ rewrite (proj2 (N.eqb_eq a b)) by dlia
              | rewrite (proj2 (N.eqb_neq a b)) by dlia ]
    end.

Section Codec.

Lemma octet_to_N b : octet (Byte.to_N b) = b.
Proof. unfold octet. by rewrite Byte.of_to_N. Qed.

Lemma to_N_octet n : (n < 256)%N → Byte.to_N (octet n) = n.
Proof.
  intros Hn. unfold octet. destruct (Byte.of_N n) as [b|] eqn:E.
  - by apply Byte.to_of_N.
  - apply Byte.of_N_None_iff in E. lia.
Qed.

Lemma to_N_bound b : (Byte.to_N b < 256)%N.
Proof. pose proof (Byte.to_N_bounded b). lia. Qed.

Lemma trail_Some lo hi b x :
  trail lo hi b = Some x →
  (lo ≤ Byte.to_N b ≤ hi)%N ∧ x = (Byte.to_N b - 0x80)%N.
Proof.
  unfold trail.
  destruct (N.leb_spec lo (Byte.to_N b)), (N.leb_spec (Byte.to_N b) hi);
    try done.
  intros [= <-]. lia.
Qed.

(** Find the byte whose value an [octet] is given. *)
Ltac name_bytes :=
  repeat match goal with
    | |- context [octet ?n] =>
        lazymatch n with
        | Byte.to_N _ => fail
        | _ =>
            match goal with
            | b : byte |- _ =>
                replace n with (Byte.to_N b) by dlia; rewrite (octet_to_N b)
            end
        end
    end.

(** ** UTF-8 *)

(** Decoding reads the sequence of a character back. *)
Lemma utf8_decode_char c bs r :
  utf8_char c = Some bs →
  utf8_decode (bs ++ r) = cons c <$> utf8_decode r.
Proof.
  unfold utf8_char.
  destruct (N.ltb_spec c 0x80).
  { intros [= <-]. cbn [app utf8_decode]. rewrite to_N_octet by lia.
    by settle_tests. }
  destruct (N.ltb_spec c 0x800).
  { intros [= <-]. cbn [app utf8_decode]. unfold trail.
    rewrite !to_N_octet by dlia. settle_tests. cbn.
    destruct (utf8_decode r); cbn; [|done]. do 2 f_equal. dlia. }
  destruct (N.ltb_spec c 0x10000).
  { destruct (N.leb_spec 0xD800 c), (N.ltb_spec c 0xE000); try done;
      intros [= <-]; cbn [app utf8_decode andb]; unfold trail;
      rewrite !to_N_octet by dlia.
    all: destruct (N.eqb_spec (0xE0 + c / 4096) 0xE0);
         destruct (N.eqb_spec (0xE0 + c / 4096) 0xED);
         settle_tests; cbn;
         (destruct (utf8_decode r); cbn; [|done]); do 2 f_equal; dlia. }
  destruct (N.ltb_spec c 0x110000); [|done].
  intros [= <-]. cbn [app utf8_decode]. unfold trail.
  rewrite !to_N_octet by dlia.
  destruct (N.eqb_spec (0xF0 + c / 262144) 0xF0);
    destruct (N.eqb_spec (0xF0 + c / 262144) 0xF4);
    settle_tests; cbn;
    (destruct (utf8_decode r); cbn; [|done]); do 2 f_equal; dlia.
Qed.

Lemma utf8_decode_encoded s b :
  encode UTF_8 s = Some b → utf8_decode b = Some s.
Proof.
  revert b. induction s as [|c s IH]; intros b; [by intros [= <-]|].
  cbn [encode enc_char].
  destruct (utf8_char c) as [bs|] eqn:Hc; [|done]. cbn.
  destruct (encode UTF_8 s) as [r|]; [|done]. intros [= <-].
  by rewrite (utf8_decode_char _ _ _ Hc), (IH r).
Qed.

(** Encoding writes the bytes of a decoded text back: the decoder takes
    one form only for every character. *)
Lemma utf8_encode_decoded b s :
  utf8_decode b = Some s → encode UTF_8 s = Some b.
Proof.
  remember (length b) as n eqn:Hn. revert b s Hn.
  induction n as [n IH] using lt_wf_ind. intros b s -> H.
  destruct b as [|b0 r]; [by injection H as <-|].
  cbn [utf8_decode] in H. pose proof (to_N_bound b0) as B0.
  destruct (N.ltb_spec (Byte.to_N b0) 0x80).
  { destruct (utf8_decode r) as [s'|] eqn:E; [|done]. injection H as <-.
    cbn [encode enc_char]. unfold utf8_char. settle_tests.
    rewrite octet_to_N. cbn.
    by rewrite (IH (length r)) with (b := r) (s := s');
      [|simpl; lia|done|done]. }
  destruct (N.ltb_spec (Byte.to_N b0) 0xC2); [done|].
  destruct (N.ltb_spec (Byte.to_N b0) 0xE0).
  { destruct r as [|b1 r1]; [done|].
    destruct (trail _ _ b1) as [x1|] eqn:T1; [|done].
    apply trail_Some in T1 as [R1 ->]. cbn in H.
    destruct (utf8_decode r1) as [s'|] eqn:E; [|done]. injection H as <-.
    cbn [encode enc_char]. unfold utf8_char. settle_tests. cbn.
    rewrite (IH (length r1)) with (b := r1) (s := s');
      [|simpl; lia|done|done].
    cbn. repeat f_equal; name_bytes; done. }
  destruct (N.ltb_spec (Byte.to_N b0) 0xF0).
  { destruct r as [|b1 [|b2 r2]]; try done.
    destruct (trail _ _ b1) as [x1|] eqn:T1; [|done].
    apply trail_Some in T1 as [R1 ->]. cbn in H.
    destruct (trail _ _ b2) as [x2|] eqn:T2; [|done].
    apply trail_Some in T2 as [R2 ->]. cbn in H.
    destruct (utf8_decode r2) as [s'|] eqn:E; [|done]. injection H as <-.
    cbn [encode enc_char]. unfold utf8_char.
    rewrite (IH (length r2)) with (b := r2) (s := s');
      [|simpl; lia|done|done].
    assert (C : (Byte.to_N b0 = 0xE0 ∨ 0xE1 ≤ Byte.to_N b0 ≤ 0xEC
                 ∨ Byte.to_N b0 = 0xED ∨ 0xEE ≤ Byte.to_N b0)%N) by lia.
    destruct C as [C|[C|[C|C]]]; revert R1; settle_tests; intros R1;
      settle_tests; cbn; repeat f_equal; name_bytes; done. }
  destruct (N.ltb_spec (Byte.to_N b0) 0xF5); [|done].
  destruct r as [|b1 [|b2 [|b3 r3]]]; try done.
  destruct (trail _ _ b1) as [x1|] eqn:T1; [|done].
  apply trail_Some in T1 as [R1 ->]. cbn in H.
  destruct (trail _ _ b2) as [x2|] eqn:T2; [|done].
  apply trail_Some in T2 as [R2 ->]. cbn in H.
  destruct (trail _ _ b3) as [x3|] eqn:T3; [|done].
  apply trail_Some in T3 as [R3 ->]. cbn in H.
  destruct (utf8_decode r3) as [s'|] eqn:E; [|done]. injection H as <-.
  cbn [encode enc_char]. unfold utf8_char.
  rewrite (IH (length r3)) with (b := r3) (s := s');
    [|simpl; lia|done|done].
  assert (C : (Byte.to_N b0 = 0xF0 ∨ 0xF1 ≤ Byte.to_N b0 ≤ 0xF3
               ∨ Byte.to_N b0 = 0xF4)%N) by lia.
  destruct C as [C|[C|C]]; revert R1; settle_tests; intros R1;
    settle_tests; cbn; repeat f_equal; name_bytes; done.
Qed.

(** ** The three encodings *)

Lemma decode_encoded e s b : encode e s = Some b → decode e b = Some s.
Proof.
  destruct e; [apply utf8_decode_encoded| |].
  - revert b. induction s as [|c s IH]; intros b; [by intros [= <-]|].
    cbn [encode enc_char]. destruct (N.ltb_spec c 256); [|done]. cbn.
    destruct (encode Latin_1 s) as [r|]; [|done]. intros [= <-].
    specialize (IH r eq_refl). cbn in *. injection IH as ->.
    by rewrite to_N_octet.
  - revert b. induction s as [|c s IH]; intros b; [by intros [= <-]|].
    cbn [encode enc_char]. destruct (N.ltb_spec c 128); [|done]. cbn.
    destruct (encode ASCII s) as [r|]; [|done]. intros [= <-].
    specialize (IH r eq_refl). cbn in *.
    rewrite to_N_octet by lia. settle_tests. cbn. by rewrite IH.
Qed.

Lemma encode_decoded e b s : decode e b = Some s → encode e s = Some b.
Proof.
  destruct e; [apply utf8_encode_decoded| |].
  - cbn. intros [= <-]. induction b as [|x b IH]; [done|].
    cbn [fmap list_fmap encode enc_char]. pose proof (to_N_bound x).
    settle_tests. cbn. rewrite IH. cbn. by rewrite octet_to_N.
  - cbn. revert s. induction b as [|x b IH]; intros s; [by intros [= <-]|].
    cbn. destruct (N.ltb_spec (Byte.to_N x) 128); [|done]. cbn.
    destruct (mapM _ b) as [s'|]; [|done]. cbn. intros [= <-].
    cbn [encode enc_char]. settle_tests. cbn.
    rewrite (IH s' eq_refl). cbn. by rewrite octet_to_N.
Qed.

(** The ASCII characters are single bytes of their own value in each of
    the encodings. *)
Lemma enc_char_ascii e c : (c < 128)%N → enc_char e c = Some [octet c].
Proof. intros Hc. destruct e; cbn; unfold utf8_char; by settle_tests. Qed.

Lemma encode_is_Some e s :
  is_Some (encode e s) ↔ Forall (λ c, is_Some (enc_char e c)) s.
Proof.
  induction s as [|c s IH]; [by split; [constructor|eexists]|].
  rewrite Forall_cons, <- IH. cbn [encode].
  destruct (enc_char e c) as [bs|]; cbn.
  - destruct (encode e s) as [r|]; cbn; split.
    + by intros _; split; eexists.
    + by intros _; eexists.
    + by intros [??].
    + by intros [_ [??]].
  - split; [by intros [??]|by intros [[??] _]].
Qed.

(** ** Line ends *)

(** Induction over a text two characters at a time. *)
Lemma text_ind2 (P : text → Prop) :
  P [] → (∀ c, P [c]) →
  (∀ c d r, P r → P (d :: r) → P (c :: d :: r)) →
  ∀ s, P s.
Proof.
  intros H0 H1 H2 s. enough (P s ∧ ∀ c, P (c :: s)) as [??] by done.
  induction s as [|d r [IH1 IH2]]; [by split|]. split; [apply IH2|].
  intros c. by apply H2.
Qed.

Lemma universal_no_cr s : cr ∉ universal_newlines s.
Proof.
  assert (L : lf ≠ cr) by done.
  induction s as [|c|c d r IH1 IH2] using text_ind2.
  - apply not_elem_of_nil.
  - cbn [universal_newlines]. destruct (N.eqb_spec c cr);
      apply not_elem_of_cons; (split; [done|apply not_elem_of_nil]).
  - cbn [universal_newlines] in *. destruct (N.eqb_spec c cr).
    + destruct (d =? lf)%N; by apply not_elem_of_cons.
    + by apply not_elem_of_cons.
Qed.

Lemma universal_Forall (P : N → Prop) s :
  P lf → Forall P s → Forall P (universal_newlines s).
Proof.
  intros Hlf. induction s as [|c|c d r IH1 IH2] using text_ind2.
  - done.
  - intros [Hc _]%Forall_cons. cbn [universal_newlines].
    destruct (c =? cr)%N; by repeat constructor.
  - intros [Hc Hr]%Forall_cons. pose proof Hr as [Hd Hr']%Forall_cons.
    cbn [universal_newlines] in *. destruct (c =? cr)%N.
    + destruct (d =? lf)%N; constructor; auto.
    + constructor; auto.
Qed.

Lemma universal_id s : cr ∉ s → universal_newlines s = s.
Proof.
  induction s as [|c s IH]; [done|]. intros [Hc Hs]%not_elem_of_cons.
  cbn [universal_newlines]. destruct (N.eqb_spec c cr); [done|].
  by rewrite IH.
Qed.

Lemma to_linesep_cons c s :
  to_linesep CRLF (c :: s)
  = (if (c =? lf)%N then [cr; lf] else [c]) ++ to_linesep CRLF s.
Proof. done. Qed.

Lemma to_linesep_Forall (P : N → Prop) sep s :
  P cr → P lf → Forall P s → Forall P (to_linesep sep s).
Proof.
  intros Hcr Hlf. destruct sep; [done|].
  induction 1 as [|c s Hc _ IH]; [done|]. rewrite to_linesep_cons.
  destruct (c =? lf)%N; repeat constructor; auto.
Qed.

(** Reading gives back the text that was written, when the text has no
    carriage return. *)
Lemma linesep_round sep s :
  cr ∉ s → universal_newlines (to_linesep sep s) = s.
Proof.
  destruct sep; [apply universal_id|].
  induction s as [|c s IH]; [done|]. intros [Hc Hs]%not_elem_of_cons.
  rewrite to_linesep_cons. destruct (N.eqb_spec c lf) as [->|Hn].
  - change ([cr; lf] ++ to_linesep CRLF s)
      with (cr :: lf :: to_linesep CRLF s).
    cbn [universal_newlines]. rewrite !N.eqb_refl. by rewrite IH.
  - change ([c] ++ to_linesep CRLF s) with (c :: to_linesep CRLF s).
    cbn [universal_newlines]. destruct (N.eqb_spec c cr); [done|].
    by rewrite IH.
Qed.





(** ** Reading and writing *)

Lemma read_text_no_cr p b s : read_text p b = Some s → cr ∉ s.
Proof.
  unfold read_text. destruct (decode _ b) as [raw|]; [|done].
  intros [= <-]. apply universal_no_cr.
Qed.

(** What was read can be written, also after separators have changed:
    no encoding error can come of the script. *)
Lemma write_after_read p b content t :
  read_text p b = Some content → Forall2 amp_step content t →
  is_Some (write_bytes p t).
Proof.
  unfold read_text, write_bytes. set (e := preferred_encoding p).
  destruct (decode e b) as [raw|] eqn:Hd; [|done]. intros [= <-] Ht.
  assert (A : ∀ c, (c < 128)%N → is_Some (enc_char e c))
    by (intros c Hc; rewrite enc_char_ascii by done; by eexists).
  apply encode_is_Some, to_linesep_Forall; [by apply A..|].
  assert (Hraw : Forall (λ c, is_Some (enc_char e c)) raw)
    by (apply encode_is_Some; erewrite encode_decoded by done; by eexists).
  apply (universal_Forall _ _ (A lf eq_refl)) in Hraw.
  clear Hd. induction Ht as [|c d s t Hcd _ IH]; [done|].
  apply Forall_cons in Hraw as [Hc Hs]. constructor; [|by apply IH].
  destruct Hcd as [->|[_ ->]]; [done|by apply A].
Qed.

Lemma read_written p t b :
  write_bytes p t = Some b → cr ∉ t → read_text p b = Some t.
Proof.
  unfold read_text, write_bytes. intros H%decode_encoded Ht.
  rewrite H. cbn. by rewrite linesep_round.
Qed.


End Codec.

(** * The script *)

Section Script.

Lemma patterns_shape r :
  r ∈ patterns → ∃ A B, r = rule_pat A B ∧ flat A = true ∧ flat B = true.
Proof.
  unfold patterns. rewrite !elem_of_cons, elem_of_nil.
  intros [->|[->|[->|[->|[->|[]]]]]]; by eexists _, _.
Qed.

Lemma brightness_ok : light_ok (lit "/set-brightness") (lit "level=") = true.
Proof. by vm_compute. Qed.

Lemma hue_ok : light_ok (lit "/set-hue-saturation") (lit "hue=") = true.
Proof. by vm_compute. Qed.

Lemma color_ok :
  light_ok (lit "/set-color-temperature") (lit "color_temperature=") = true.
Proof. by vm_compute. Qed.

Lemma effect_ok :
  light_ok (lit "/set-lighting-effect") (lit "lighting_effect=") = true.
Proof. by vm_compute. Qed.

Lemma light_rules_ok path param :
  (path, param) ∈ light_rules → light_ok path param = true.
Proof.
  unfold light_rules. rewrite !elem_of_cons, elem_of_nil.
  intros [[= -> ->]|[[= -> ->]|[[= -> ->]|[[= -> ->]|[]]]]]; by vm_compute.
Qed.

Lemma light_rules_patterns :
  (λ rule, light_pat rule.1 rule.2) <$> light_rules
  = [pat_brightness; pat_hue; pat_color; pat_effect].
Proof. done. Qed.

Lemma sub_amp_rel r s : r ∈ patterns → Forall2 amp_step s (re_sub r repl s).
Proof.
  intros (A & B & -> & FA & FB)%patterns_shape.
  eapply rewrites_amp_rel, (re_sub_rewrites _ _ FA FB).
Qed.

Lemma transform_amp_rel s : Forall2 amp_step s (transform s).
Proof.
  unfold transform.
  repeat (eapply amp_rel_trans;
          [|apply sub_amp_rel; unfold patterns; set_solver]).
  apply amp_rel_refl.
Qed.

Lemma unmatched_inv s r : unmatched s = true → r ∈ patterns → re_search r s = false.
Proof.
  unfold unmatched. rewrite forallb_forall.
  intros H Hr%list_elem_of_In. apply H in Hr. by apply negb_true_iff.
Qed.

Lemma transform_unmatched s : unmatched s = true → transform s = s.
Proof.
  intros H. unfold transform.
  assert (Hr : ∀ r, r ∈ patterns → re_sub r repl s = s)
    by (intros r Hr; by apply re_sub_no_match, unmatched_inv).
  rewrite (Hr pat_brightness), (Hr pat_hue), (Hr pat_color), (Hr pat_effect),
    (Hr pat_start_date); first [done | unfold patterns; set_solver].
Qed.

(** The loop body on a file it gets through: the bytes of the
    transformed text take the place of the bytes of the file. *)
Lemma patch_ok w path f content :
  holds w path f content →
  ∃ b, write_bytes (platform_of w) (transform content) = Some b
       ∧ patch path w
         = (logged (with_fs w (<[path := Regular (File b true true)]> (fs w)))
              (Wrote path (transform content)), inr tt).
Proof.
  intros (Hf & Hr & Hw & Hq & Ht).
  destruct (write_after_read _ _ _ _ Ht (transform_amp_rel content))
    as [b Hb].
  exists b. split; [done|].
  unfold patch, mbind, io_bind, read_file, write_file.
  rewrite Hf, Hr, Hq, Ht. cbn [negb]. by rewrite Hf, Hw, Hb, Hq, Hr.
Qed.


Lemma openable_inv w path :
  openable w path = true →
  ∃ f, fs w !! path = Some (Regular f)
       ∧ readable f = true ∧ writable f = true.
Proof.
  unfold openable. destruct (fs w !! path) as [[|f]|]; [done| |done].
  intros [??]%andb_prop. eauto.
Qed.

Lemma holds_openable w path f content :
  holds w path f content → openable w path = true.
Proof. intros (Hf & Hr & Hw & _). unfold openable. by rewrite Hf, Hr, Hw. Qed.




Lemma run_unfold w :
  run w =
  match patch "TapoLightStripOperations.cs" w with
  | (w1, inr _) =>
      match patch "TapoPlugOperations.cs" w1 with
      | (w2, inr _) => print "Fixed URL constructions" w2
      | (w2, inl e) => (w2, inl e)
      end
  | (w1, inl e) => (w1, inl e)
  end.
Proof.
  unfold run, files, for_each, mbind, io_bind, mret, io_ret.
  destruct (patch "TapoLightStripOperations.cs" w) as [w1 [e|[]]]; [done|].
  by destruct (patch "TapoPlugOperations.cs" w1) as [w2 [e|[]]].
Qed.

(** A character that occurs neither in the literals nor among the digits
    of a text. *)
Ltac no_char :=
  rewrite ?not_elem_of_app, ?not_elem_of_cons; split_and?;
  first [done | apply not_elem_of_nil | by apply digits_not | not_in_lit].

(** After one pass no pattern matches any more, unless start dates stand
    crowded. *)
Lemma transform_unmatched_after s :
  ¬ crowded s → unmatched (transform s) = true.
Proof.
  intros Hnc. unfold transform.
  set (s1 := re_sub pat_brightness repl s).
  set (s2 := re_sub pat_hue repl s1).
  set (s3 := re_sub pat_color repl s2).
  set (s4 := re_sub pat_effect repl s3).
  set (s5 := re_sub pat_start_date repl s4).
  assert (H01 : Forall2 amp_step s s1) by (apply sub_amp_rel; set_solver).
  assert (H12 : Forall2 amp_step s1 s2) by (apply sub_amp_rel; set_solver).
  assert (H23 : Forall2 amp_step s2 s3) by (apply sub_amp_rel; set_solver).
  assert (H34 : Forall2 amp_step s3 s4) by (apply sub_amp_rel; set_solver).
  assert (H45 : Forall2 amp_step s4 s5) by (apply sub_amp_rel; set_solver).
  unfold unmatched, patterns. cbn [forallb].
  assert (re_search pat_brightness s5 = false) as ->
    by (apply (light_once _ _ brightness_ok s); eauto 6 using amp_rel_trans).
  assert (re_search pat_hue s5 = false) as ->
    by (apply (light_once _ _ hue_ok s1); eauto 6 using amp_rel_trans).
  assert (re_search pat_color s5 = false) as ->
    by (apply (light_once _ _ color_ok s2); eauto 6 using amp_rel_trans).
  assert (re_search pat_effect s5 = false) as ->
    by (apply (light_once _ _ effect_ok s3); eauto 6 using amp_rel_trans).
  assert (re_search pat_start_date s5 = false) as ->; [|done].
  apply (sd_once s4 s5); [|apply amp_rel_refl].
  intros Hc. apply Hnc. eapply crowded_pull; [|done].
  eauto 6 using amp_rel_trans.
Qed.

Lemma digit_tail_unique (x1 x2 : text) c1 c2 d1 d2 :
  digits d1 → digits d2 → is_decimal c1 = false → is_decimal c2 = false →
  x1 ++ c1 :: d1 = x2 ++ c2 :: d2 → d1 = d2.
Proof.
  intros H1 H2 Hc1 Hc2 Heq. apply (f_equal reverse) in Heq.
  rewrite !reverse_app, !reverse_cons in Heq. list_norm_in Heq.
  apply digit_run_unique in Heq as [Heq _];
    [|by apply Forall_reverse..|done|done].
  apply (f_equal reverse) in Heq. by rewrite !reverse_involutive in Heq.
Qed.

(** A brightness call with [l9] and digits: the separator is rewritten,
    whatever stands around the call. *)
Lemma brightness_fixed (a ds b : text) :
  digits ds → ds ≠ [] →
  ∃ a' b',
    transform (a ++ lit "l9" ++ ds ++ lit "/set-brightness&level=" ++ b)
    = a' ++ lit "l9" ++ ds ++ lit "/set-brightness?level=" ++ b'
    ∧ Forall2 amp_step a a' ∧ Forall2 amp_step b b'.
Proof.
  intros Hds Hne.
  set (w1 := lit "l9" ++ ds ++ lit "/set-brightness").
  assert (E : a ++ lit "l9" ++ ds ++ lit "/set-brightness&level=" ++ b
              = a ++ w1 ++ amp :: lit "level=" ++ b).
  { change (lit "/set-brightness&level=")
      with (lit "/set-brightness" ++ amp :: lit "level=").
    unfold w1. by list_norm. }
  rewrite E. clear E.
  pose proof (transform_amp_rel (a ++ w1 ++ amp :: lit "level=" ++ b)) as Hrel.
  remember (transform (a ++ w1 ++ amp :: lit "level=" ++ b)) as u eqn:Hu.
  unfold transform in Hu.
  change pat_brightness
    with (light_pat (lit "/set-brightness") (lit "level=")) in Hu.
  rewrite (light_sub_app _ _ brightness_ok) in Hu
    by (apply lang_light_path; eauto).
  assert (Hu' : Forall2 amp_step
            (re_sub pat_brightness repl a
             ++ (w1 ++ quest :: lit "level=")
             ++ re_sub pat_brightness repl b) u).
  { rewrite Hu. list_norm.
    repeat (eapply amp_rel_trans; [|apply sub_amp_rel; set_solver]).
    apply amp_rel_refl. }
  apply amp_rel_keep in Hu' as (a' & b' & -> & Ha & Hb).
  2:{ unfold w1. no_char. }
  exists a', b'. split_and!.
  - change (lit "/set-brightness?level=")
      with (lit "/set-brightness" ++ quest :: lit "level=").
    unfold w1. by list_norm.
  - eapply amp_rel_trans; [apply (sub_amp_rel pat_brightness); set_solver|done].
  - eapply amp_rel_trans; [apply (sub_amp_rel pat_brightness); set_solver|done].
Qed.

(** A parameter name that is not the one of the rule. *)
Ltac other_param :=
  let Heq := fresh in let HB := fresh in
  intros ???? Heq ? _ HB;
  apply separator_align in Heq as [_ Heq]; [|done];
  apply lang_str_inv in HB as ->; eval_lit; simpl in Heq; congruence.

(** A brightness call whose digits do not start with 9: no rule touches
    it, whatever stands around the call. *)
Lemma brightness_kept (a es b : text) :
  digits es → head es ≠ Some 57%N →
  ∃ a' b',
    transform (a ++ lit "l" ++ es ++ lit "/set-brightness&level=" ++ b)
    = a' ++ lit "l" ++ es ++ lit "/set-brightness&level=" ++ b'
    ∧ Forall2 amp_step a a' ∧ Forall2 amp_step b b'.
Proof.
  intros Hes Hhd.
  set (m := lit "l" ++ es ++ lit "/set-brightness").
  set (n := lit "level=").
  assert (E : ∀ x y : text,
            x ++ lit "l" ++ es ++ lit "/set-brightness&level=" ++ y
            = x ++ m ++ amp :: n ++ y).
  { intros x y.
    change (lit "/set-brightness&level=")
      with (lit "/set-brightness" ++ amp :: lit "level=").
    unfold m, n. by list_norm. }
  rewrite E.
  assert (Hm : amp ∉ m) by (unfold m; no_char).
  assert (Hn : amp ∉ n) by (unfold n; no_char).
  unfold transform.
  change pat_brightness
    with (rule_pat (light_path (lit "/set-brightness")) (Str (lit "level="))).
  change pat_hue
    with (rule_pat (light_path (lit "/set-hue-saturation")) (Str (lit "hue="))).
  change pat_color
    with (rule_pat (light_path (lit "/set-color-temperature"))
            (Str (lit "color_temperature="))).
  change pat_effect
    with (rule_pat (light_path (lit "/set-lighting-effect"))
            (Str (lit "lighting_effect="))).
  change pat_start_date with (rule_pat record_path (Str (lit "start_date="))).
  destruct (rule_keeps (light_path (lit "/set-brightness")) (Str (lit "level="))
              eq_refl eq_refl a m n b Hm Hn) as (a1 & b1 & -> & Ha1 & Hb1).
  { intros x w1 w2 y Heq Hlen (ds & -> & _ & Hds)%lang_light_path _.
    apply separator_align in Heq as [Heq _]; [|done].
    unfold m in Heq. rewrite !app_assoc in Heq.
    apply app_inv_tail in Heq. revert Heq. eval_lit. list_norm.
    intros Heq.
    apply (digit_tail_unique x a 108%N 108%N (57%N :: ds) es) in Heq;
      [|by constructor|done..].
    by subst es. }
  destruct (rule_keeps (light_path (lit "/set-hue-saturation"))
              (Str (lit "hue=")) eq_refl eq_refl a1 m n b1 Hm Hn)
    as (a2 & b2 & -> & Ha2 & Hb2); [unfold n; other_param|].
  destruct (rule_keeps (light_path (lit "/set-color-temperature"))
              (Str (lit "color_temperature=")) eq_refl eq_refl a2 m n b2 Hm Hn)
    as (a3 & b3 & -> & Ha3 & Hb3); [unfold n; other_param|].
  destruct (rule_keeps (light_path (lit "/set-lighting-effect"))
              (Str (lit "lighting_effect=")) eq_refl eq_refl a3 m n b3 Hm Hn)
    as (a4 & b4 & -> & Ha4 & Hb4); [unfold n; other_param|].
  destruct (rule_keeps record_path (Str (lit "start_date="))
              eq_refl eq_refl a4 m n b4 Hm Hn)
    as (a5 & b5 & -> & Ha5 & Hb5); [unfold n; other_param|].
  exists a5, b5. split_and!; [by rewrite E|eauto 6 using amp_rel_trans..].
Qed.

(** Each rule alone leaves alone what lies outside the matches it
    replaces. *)
Lemma outside_matches_kept r s m :
  r ∈ patterns →
  forallb (λ m', apart m' m) (finditer r s) = true →
  slice m.1 m.2 (re_sub r repl s) = slice m.1 m.2 s.
Proof.
  intros (A & B & -> & FA & FB)%patterns_shape Hap.
  apply slice_ext. intros i Hi.
  destruct (decide (re_sub (rule_pat A B) repl s !! i = s !! i)) as [|Hne];
    [done|exfalso].
  apply (changed_in_span _ _ FA FB s 0 i) in Hne as (m' & Hin & Hm').
  rewrite forallb_forall in Hap.
  apply list_elem_of_In, Hap in Hin. unfold apart in Hin.
  apply orb_prop in Hin as [H|H]; apply Nat.leb_le in H; simpl in *; lia.
Qed.

Lemma all_apart_l l1 l2 m :
  all_apart l1 l2 = true → m ∈ l2 → forallb (λ m', apart m' m) l1 = true.
Proof.
  unfold all_apart. rewrite !forallb_forall. intros H Hm m' Hm'.
  specialize (H m' Hm'). rewrite forallb_forall in H.
  by apply H, list_elem_of_In.
Qed.

Lemma all_apart_r l1 l2 m :
  all_apart l1 l2 = true → m ∈ l1 → forallb (λ m', apart m' m) l2 = true.
Proof.
  unfold all_apart. rewrite !forallb_forall. intros H Hm m' Hm'.
  apply list_elem_of_In in Hm. specialize (H m Hm).
  rewrite forallb_forall in H. specialize (H m' Hm').
  unfold apart in *. by rewrite orb_comm.
Qed.

End Script.

(** * The claims *)

(** C1: a second pass changes the text again.  With two [&start_date=]
    behind one record path and no double quote between them, the first
    pass rewrites the last of them only and the second pass the one
    before it: the two passes differ. *)
Theorem transform_twice_differs :
  transform (lit "p5/get-x&start_date=1&start_date=2")
  = lit "p5/get-x&start_date=1?start_date=2"
  ∧ transform (transform (lit "p5/get-x&start_date=1&start_date=2"))
    = lit "p5/get-x?start_date=1?start_date=2"
  ∧ transform (transform (lit "p5/get-x&start_date=1&start_date=2"))
    ≠ transform (lit "p5/get-x&start_date=1&start_date=2").
Proof. split_and!; by vm_compute. Qed.

(** C2: on the end-to-end scenario the two URLs come out with [?] before
    the first parameter, both files are overwritten with that text, and
    the run ends without error having printed the one line
    Fixed URL constructions. *)
Theorem scenario_end_to_end :
  transform scenario_in = scenario_out
  ∧ ∃ w, run scenario_world = (w, inr tt)
         ∧ bytes_at w "TapoLightStripOperations.cs" = Some (utf8 scenario_out)
         ∧ bytes_at w "TapoPlugOperations.cs" = Some (utf8 scenario_out)
         ∧ stdout w = ["Fixed URL constructions"%string].
Proof.
  split; [by vm_compute|].
  eexists. split; [by vm_compute|]. split_and!; by vm_compute.
Qed.

(** C3: wherever [l9], at least one more digit and
    [/set-brightness&level=] stand in the text, the [&] comes out as [?];
    a brightness call whose digits do not start with 9, such as
    [l8123/set-brightness&level=50], comes out as it was.  In both cases
    the text around the call changes at most by further rewritten
    separators. *)
Theorem scope_precision (a b ds es : text) :
  digits ds → ds ≠ [] → digits es → head es ≠ Some 57%N →
  (∃ a' b',
     transform (a ++ lit "l9" ++ ds ++ lit "/set-brightness&level=" ++ b)
     = a' ++ lit "l9" ++ ds ++ lit "/set-brightness?level=" ++ b'
     ∧ Forall2 amp_step a a' ∧ Forall2 amp_step b b')
  ∧ (∃ a' b',
       transform (a ++ lit "l" ++ es ++ lit "/set-brightness&level=" ++ b)
       = a' ++ lit "l" ++ es ++ lit "/set-brightness&level=" ++ b'
       ∧ Forall2 amp_step a a' ∧ Forall2 amp_step b b').
Proof.
  intros Hds Hne Hes Hhd. split.
  - by apply brightness_fixed.
  - by apply brightness_kept.
Qed.

(** The same on the two calls of the specification. *)
Lemma scope_precision_witness :
  (∃ a' b',
     transform (lit "url: " ++ lit "l9" ++ lit "123"
                ++ lit "/set-brightness&level=" ++ lit "50")
     = a' ++ lit "l9" ++ lit "123" ++ lit "/set-brightness?level=" ++ b'
     ∧ Forall2 amp_step (lit "url: ") a' ∧ Forall2 amp_step (lit "50") b')
  ∧ (∃ a' b',
       transform (lit "url: " ++ lit "l" ++ lit "8123"
                  ++ lit "/set-brightness&level=" ++ lit "50")
       = a' ++ lit "l" ++ lit "8123" ++ lit "/set-brightness&level=" ++ b'
       ∧ Forall2 amp_step (lit "url: ") a' ∧ Forall2 amp_step (lit "50") b').
Proof.
  apply (scope_precision (lit "url: ") (lit "50") (lit "123") (lit "8123")).
  - repeat constructor.
  - discriminate.
  - repeat constructor.
  - discriminate.
Defined.

(** C4: the transformation of a file's text is the sequential composition
    of the five single-rule substitutions in the listed order, each rule
    scanning the output of the one before. *)
Theorem transform_is_the_chain (s : text) :
  transform s = spec_transform s
  ∧ transform s
    = re_sub pat_start_date repl
        (re_sub pat_effect repl
           (re_sub pat_color repl
              (re_sub pat_hue repl
                 (re_sub pat_brightness repl s)))).
Proof. split; reflexivity. Qed.

(** C5: the start-date rule does not rewrite every occurrence.  Of two
    record calls in one line, with no double quote between them, the scan
    finds one match that reaches from the first path to the start date of
    the second call; the separator of the first call is kept, by the rule
    and by the five rules together. *)
Theorem first_record_call_is_kept :
  finditer pat_start_date (lit "p5/get-a&start_date=1 p6/get-b&start_date=2")
  = [(0, 42)]
  ∧ re_sub pat_start_date repl
      (lit "p5/get-a&start_date=1 p6/get-b&start_date=2")
    = lit "p5/get-a&start_date=1 p6/get-b?start_date=2"
  ∧ transform (lit "p5/get-a&start_date=1 p6/get-b&start_date=2")
    = lit "p5/get-a&start_date=1 p6/get-b?start_date=2"
  ∧ (∀ call, call ∈ [lit "p5/get-a&start_date="; lit "p6/get-b&start_date="] →
       ∃ e g, match_at pat_start_date call = Some (e, g) ∧ e = length call).
Proof.
  split; [by vm_compute|]. split; [by vm_compute|]. split; [by vm_compute|].
  intros call [->|[->|[]%elem_of_nil]%elem_of_cons]%elem_of_cons;
    eexists _, _; split; by vm_compute.
Qed.




(** C7: when the matches of the brightness rule and the matches of the
    start-date rule lie apart in a text, rewriting the one rule's matches
    leaves the text of every match of the other rule as it was. *)
Theorem rules_do_not_interfere (s : text) :
  all_apart (finditer pat_brightness s) (finditer pat_start_date s) = true →
  (∀ m, m ∈ finditer pat_start_date s →
        slice m.1 m.2 (re_sub pat_brightness repl s) = slice m.1 m.2 s)
  ∧ (∀ m, m ∈ finditer pat_brightness s →
          slice m.1 m.2 (re_sub pat_start_date repl s) = slice m.1 m.2 s).
Proof.
  intros Hap. split; intros m Hm.
  - apply outside_matches_kept; [set_solver|]. by eapply all_apart_l.
  - apply outside_matches_kept; [set_solver|]. by eapply all_apart_r.
Qed.

(** The same on the scenario text, with its one match of each rule. *)
Lemma rules_do_not_interfere_witness :
  finditer pat_brightness scenario_in = [(13, 40)]
  ∧ finditer pat_start_date scenario_in = [(61, 86)]
  ∧ (∀ m, m ∈ finditer pat_start_date scenario_in →
          slice m.1 m.2 (re_sub pat_brightness repl scenario_in)
          = slice m.1 m.2 scenario_in)
  ∧ (∀ m, m ∈ finditer pat_brightness scenario_in →
          slice m.1 m.2 (re_sub pat_start_date repl scenario_in)
          = slice m.1 m.2 scenario_in).
Proof.
  split; [reflexivity|]. split; [reflexivity|].
  apply (rules_do_not_interfere scenario_in). reflexivity.
Defined.



(** C9: the five-rule transformation preserves the length of the text:
    for every input, the output has as many characters as the input. *)
Theorem transform_preserves_length (s : text) :
  length (transform s) = length s.
Proof. symmetry. eapply Forall2_length, transform_amp_rel. Qed.

(** C10: for every input, the output differs from the input only where an
    [&] has become [?]: position by position, the output character is the
    input character, or the input character is [&] and the output
    character is [?]; nothing is inserted or deleted. *)
Theorem transform_changes_only_separators (s : text) :
  Forall2 amp_step s (transform s).
Proof. apply transform_amp_rel. Qed.

(** * Further properties of the script *)

(** Membership in a list that is written out. *)
Ltac in_list :=
  unfold patterns, light_rules;
  repeat first [apply list_elem_of_here | apply list_elem_of_further].

Ltac in_spec_rules :=
  unfold spec_rules;
  repeat first [apply list_elem_of_here | apply list_elem_of_further].

Section Further.

Lemma amp_rel_antisym (a b : text) :
  Forall2 amp_step a b → Forall2 amp_step b a → a = b.
Proof.
  induction 1 as [|c d a b Hcd _ IH]; [done|].
  intros [Hdc Hba]%Forall2_cons_1. f_equal; [|by apply IH].
  destruct Hcd as [->|[-> ->]]; [done|].
  by destruct Hdc as [?|[? _]].
Qed.

(** A rule whose pattern matches somewhere changes the text. *)
Lemma re_sub_changes A B s :
  flat A = true → flat B = true →
  re_search (rule_pat A B) s = true → re_sub (rule_pat A B) repl s ≠ s.
Proof.
  intros FA FB. induction s as [|c s IH]; cbn [re_search].
  - destruct (match_at (rule_pat A B) []) as [[e g]|] eqn:Hm; [|done].
    apply (rule_sound _ _ FA FB) in Hm as (w1 & ? & ? & Hs & _).
    by destruct w1.
  - destruct (match_at (rule_pat A B) (c :: s)) as [[e g]|] eqn:Hm.
    + intros _.
      apply (re_sub_rule_hit _ _ FA FB) in Hm as (w1 & w2 & t & -> & _ & _ & _ & ->).
      intros [=]%app_inv_head.
    + intros Hs. rewrite re_sub_miss by done. intros [=]. by apply IH.
Qed.

Lemma light_pass_amp_rel s : Forall2 amp_step s (light_pass s).
Proof.
  unfold light_pass.
  repeat (eapply amp_rel_trans; [|apply sub_amp_rel; in_list]).
  apply amp_rel_refl.
Qed.

Lemma transform_light_pass s :
  transform s = re_sub pat_start_date repl (light_pass s).
Proof. done. Qed.

(** After the light-strip rule of a pair, the rule matches nowhere. *)
Lemma light_rule_once path param s u :
  (path, param) ∈ light_rules →
  Forall2 amp_step (re_sub (light_pat path param) repl s) u →
  re_search (light_pat path param) u = false.
Proof. intros Hin. by apply light_once, light_rules_ok. Qed.

Lemma light_pass_unmatched s r :
  r ∈ [pat_brightness; pat_hue; pat_color; pat_effect] →
  ∀ u, Forall2 amp_step (light_pass s) u → re_search r u = false.
Proof.
  intros Hr u Hu. unfold light_pass in Hu.
  set (s1 := re_sub pat_brightness repl s) in *.
  set (s2 := re_sub pat_hue repl s1) in *.
  set (s3 := re_sub pat_color repl s2) in *.
  set (s4 := re_sub pat_effect repl s3) in *.
  assert (H12 : Forall2 amp_step s1 s2) by (apply sub_amp_rel; in_list).
  assert (H23 : Forall2 amp_step s2 s3) by (apply sub_amp_rel; in_list).
  assert (H34 : Forall2 amp_step s3 s4) by (apply sub_amp_rel; in_list).
  rewrite !elem_of_cons, elem_of_nil in Hr.
  destruct Hr as [->|[->|[->|[->|[]]]]].
  - apply (light_once _ _ brightness_ok s); eauto 6 using amp_rel_trans.
  - apply (light_once _ _ hue_ok s1); eauto 6 using amp_rel_trans.
  - apply (light_once _ _ color_ok s2); eauto 6 using amp_rel_trans.
  - by apply (light_once _ _ effect_ok s3).
Qed.

(** What the loop body does to one path leaves the other as it was. *)
Lemma holds_frame w p' nd ev path f content :
  path ≠ p' → holds w path f content →
  holds (logged (with_fs w (<[p' := nd]> (fs w))) ev) path f content.
Proof.
  intros Hne (Hf & Hr & Hw & Hq & Ht). split_and!; try done.
  cbn. by rewrite lookup_insert_ne.
Qed.

Lemma failure_frame w p' nd ev path :
  path ≠ p' →
  failure (logged (with_fs w (<[p' := nd]> (fs w))) ev) path
  = failure w path.
Proof. intros Hne. unfold failure. cbn. by rewrite lookup_insert_ne. Qed.

(** The run on two files that the loop body gets through. *)
Lemma run_ok w f1 c1 f2 c2 :
  holds w "TapoLightStripOperations.cs" f1 c1 →
  holds w "TapoPlugOperations.cs" f2 c2 →
  ∃ b1 b2,
    write_bytes (platform_of w) (transform c1) = Some b1
    ∧ write_bytes (platform_of w) (transform c2) = Some b2
    ∧ run w
      = ({| platform_of := platform_of w;
            fs := <["TapoPlugOperations.cs"%string
                    := Regular (File b2 true true)]>
                    (<["TapoLightStripOperations.cs"%string
                       := Regular (File b1 true true)]> (fs w));
            faults := faults w;
            log := log w
                   ++ [Wrote "TapoLightStripOperations.cs" (transform c1);
                       Wrote "TapoPlugOperations.cs" (transform c2);
                       Printed "Fixed URL constructions"] |},
         inr tt).
Proof.
  intros H1 H2. destruct (patch_ok _ _ _ _ H1) as (b1 & Hb1 & Hp1).
  eapply (holds_frame _ "TapoLightStripOperations.cs") in H2; [|done].
  destruct (patch_ok _ _ _ _ H2) as (b2 & Hb2 & Hp2).
  exists b1, b2. split; [done|]. split; [exact Hb2|].
  rewrite run_unfold, Hp1, Hp2. unfold print, logged, with_fs. cbn.
  by list_norm.
Qed.

Lemma failure_None w path :
  failure w path = None → ∃ f content, holds w path f content.
Proof.
  unfold failure, holds.
  destruct (fs w !! path) as [[|f]|]; [done| |done].
  destruct (readable f) eqn:Hr; [|done]. cbn [negb].
  destruct (faults w !! path) as [[|n]|] eqn:Hq; [done|..];
    (destruct (read_text (platform_of w) (data f)) as [content|] eqn:Ht;
     [|done]);
    (destruct (writable f) eqn:Hw; [|done]); [done|].
  intros _. by exists f, content.
Qed.

Lemma patch_failure w path e :
  failure w path = Some e → (patch path w).2 = inl e.
Proof.
  unfold failure, patch, mbind, io_bind, read_file.
  destruct (fs w !! path) as [[|f]|] eqn:Hf; try by intros [= <-].
  destruct (readable f) eqn:Hr; [|by intros [= <-]]. cbn [negb].
  destruct (faults w !! path) as [[|n]|] eqn:Hq;
    destruct (read_text (platform_of w) (data f)) as [content|] eqn:Ht;
    try by intros [= <-].
  - unfold write_file. rewrite Hf.
    destruct (writable f); [|by intros [= <-]]. intros [= <-].
    destruct (write_after_read _ _ _ _ Ht (transform_amp_rel content))
      as [b Hb].
    by rewrite Hb, Hq.
  - unfold write_file. rewrite Hf. by destruct (writable f); [|intros [= <-]].
Qed.

Lemma amp_rel_notin (c : N) (s t : text) :
  Forall2 amp_step s t → c ≠ quest → c ∉ s → c ∉ t.
Proof.
  intros H Hc. induction H as [|a d s t Had _ IH]; [done|].
  rewrite !not_elem_of_cons. intros [Ha Hs]. split; [|by apply IH].
  by destruct Had as [->|[_ ->]].
Qed.

(** The file that a pass has written reads as the text that was
    written. *)
Lemma transform_rereads p b0 content b :
  read_text p b0 = Some content →
  write_bytes p (transform content) = Some b →
  read_text p b = Some (transform content).
Proof.
  intros Hr Hb. apply read_written; [done|].
  eapply amp_rel_notin; [apply transform_amp_rel|done|].
  by eapply read_text_no_cr.
Qed.

(** ** A character that a pattern cannot match cuts the text in two *)

Lemma strip_cut l x q (b : text) :
  forallb (λ c, negb (c =? q)%N) l = true →
  strip l (x ++ q :: b) = (λ t, t ++ q :: b) <$> strip l x.
Proof.
  revert x. induction l as [|a l IH]; intros x Hl; [done|].
  simpl in Hl. apply andb_prop in Hl as [Ha Hl].
  destruct x as [|c x]; simpl.
  - by apply negb_true_iff in Ha as ->.
  - destruct (a =? c)%N; [by apply IH|done].
Qed.

Lemma plus_then_cut {A} k (κ κ' : nat → text → option A) pos x q b :
  in_class k q = false →
  (∀ p t, κ p (t ++ q :: b) = κ' p t) →
  plus_then k κ pos (x ++ q :: b) = plus_then k κ' pos x.
Proof.
  intros Hq Hκ. revert pos.
  induction x as [|c x IH]; intros pos; simpl; [by rewrite Hq|].
  destruct (in_class k c); [|done]. by rewrite IH, Hκ.
Qed.

Lemma rmatch_cut r q b κ κ' pos x g :
  avoids q r = true →
  (∀ p t g, κ p (t ++ q :: b) g = κ' p t g) →
  rmatch r κ pos (x ++ q :: b) g = rmatch r κ' pos x g.
Proof.
  revert κ κ' pos x g.
  induction r as [l|k|r1 IH1 r2 IH2|i r IH]; intros κ κ' pos x g Hr Hκ;
    simpl in *.
  - rewrite strip_cut by done. destruct (strip l x); simpl; [apply Hκ|done].
  - apply plus_then_cut; [by apply negb_true_iff|]. intros. apply Hκ.
  - apply andb_prop in Hr as [H1 H2]. apply IH1; [done|].
    intros. by apply IH2.
  - apply IH; [done|]. intros. apply Hκ.
Qed.

Lemma match_at_cut r q x b :
  avoids q r = true → match_at r (x ++ q :: b) = match_at r x.
Proof. intros Hr. unfold match_at. by apply rmatch_cut. Qed.

Lemma re_sub_cut A B q a b :
  flat A = true → flat B = true → avoids q (rule_pat A B) = true →
  re_sub (rule_pat A B) repl (a ++ q :: b)
  = re_sub (rule_pat A B) repl a ++ q :: re_sub (rule_pat A B) repl b.
Proof.
  intros FA FB Hq. remember (length a) as n eqn:Hn. revert a Hn.
  induction n as [n IH] using lt_wf_ind. intros a ->.
  destruct a as [|c a].
  - simpl. rewrite re_sub_miss; [done|].
    change (q :: b) with ([] ++ q :: b). rewrite (match_at_cut _ q [] b Hq).
    destruct (match_at (rule_pat A B) []) as [[e g]|] eqn:Hm; [|done].
    apply (rule_sound _ _ FA FB) in Hm as (w1 & ? & ? & Hs & _).
    by destruct w1.
  - pose proof (match_at_cut _ q (c :: a) b Hq) as Hcut.
    destruct (match_at (rule_pat A B) (c :: a)) as [[e g]|] eqn:Hm.
    + pose proof Hm as Hm'.
      apply match_at_sound in Hm' as (w & t & Hs & Hw & ->).
      apply (rule_matches_inv _ _ FA FB) in Hw
        as (w1 & w2 & -> & _ & _ & H1 & H2).
      rewrite Hs in *. revert Hcut Hm. list_norm. intros Hcut Hm.
      rewrite (re_sub_hit _ _ _ _ _ Hcut), (re_sub_hit _ _ _ _ _ Hm);
        [|rewrite length_app; simpl; lia|by destruct w1
         |rewrite length_app; simpl; lia|by destruct w1].
      rewrite (rule_expand g w1 w2 t H1 H2).
      rewrite (rule_expand g w1 w2 (t ++ q :: b) H1 H2).
      replace (length (w1 ++ amp :: w2)) with (S (length w1 + length w2))
        by (rewrite length_app; simpl; lia).
      rewrite (drop_rule w1 w2 t), (drop_rule w1 w2 (t ++ q :: b)).
      rewrite (IH (length t)) with (a := t); [by list_norm| |done].
      rewrite !length_app. simpl. lia.
    + list_norm. rewrite !re_sub_miss by done. list_norm. f_equal.
      eapply IH; [|done]. simpl. lia.
Qed.

Lemma patterns_avoid_quote r : r ∈ patterns → avoids quote r = true.
Proof.
  unfold patterns. rewrite !elem_of_cons, elem_of_nil.
  intros [->|[->|[->|[->|[->|[]]]]]]; by vm_compute.
Qed.

Lemma sub_cut_quote r a b :
  r ∈ patterns →
  re_sub r repl (a ++ quote :: b)
  = re_sub r repl a ++ quote :: re_sub r repl b.
Proof.
  intros Hr. pose proof (patterns_avoid_quote r Hr) as Hq.
  apply patterns_shape in Hr as (A & B & -> & FA & FB).
  by apply re_sub_cut.
Qed.

(** ** Greedy repetition takes the longest run that lets the rest match *)

Lemma plus_then_longest {A} k (κ : nat → text → option A) pos s res :
  plus_then k κ pos s = Some res →
  ∃ w t, s = w ++ t ∧ w ≠ [] ∧ Forall (λ c, in_class k c = true) w
         ∧ κ (pos + length w) t = Some res
         ∧ ∀ w' t', s = w' ++ t' → Forall (λ c, in_class k c = true) w' →
                    length w < length w' → κ (pos + length w') t' = None.
Proof.
  revert pos. induction s as [|c s IH]; intros pos; simpl; [done|].
  destruct (in_class k c) eqn:Hc; [|done].
  destruct (plus_then k κ (S pos) s) as [res'|] eqn:Hrec.
  - intros [= ->].
    destruct (IH _ Hrec) as (w & t & -> & _ & Hw & Hk & Hmax).
    exists (c :: w), t. split_and!; [done|done|by constructor| |].
    + simpl. by replace (pos + S (length w)) with (S pos + length w) by lia.
    + intros [|c' w'] t' Heq Hw' Hlen; simpl in *; [lia|].
      injection Heq as -> Heq. inversion_clear Hw' as [|?? _ Hw''].
      replace (pos + S (length w')) with (S pos + length w') by lia.
      apply Hmax; [done|done|lia].
  - intros Hk. exists [c], s. split_and!; [done|done|by repeat constructor| |].
    + simpl. by replace (pos + 1) with (S pos) by lia.
    + intros [|c' [|d w']] t' Heq Hw' Hlen; simpl in *; [lia|lia|].
      injection Heq as -> Heq. inversion_clear Hw' as [|?? _ Hw''].
      replace (pos + S (S (length w'))) with (S pos + length (d :: w'))
        by (simpl; lia).
      destruct (κ (S pos + length (d :: w')) t') eqn:Hκ; [|done].
      destruct (plus_then_complete k κ (S pos) (d :: w') t') as [? Hs];
        [done|done|by rewrite Hκ|].
      subst s. change ((d :: w') ++ t') with (d :: w' ++ t') in Hs. congruence.
Qed.

(** The leftmost match of a pattern that matches somewhere. *)
Lemma first_match r s :
  re_search r s = true →
  ∃ gap y, s = gap ++ y
           ∧ (∀ i, i < length gap → match_at r (drop i (gap ++ y)) = None)
           ∧ is_Some (match_at r y).
Proof.
  induction s as [|c s IH]; cbn [re_search].
  - destruct (match_at r []) eqn:Hm; [|done]. intros _.
    exists [], []. split_and!; [done|simpl; lia|by rewrite Hm].
  - destruct (match_at r (c :: s)) eqn:Hm.
    + intros _. exists [], (c :: s).
      split_and!; [done|simpl; lia|by rewrite Hm].
    + intros (gap & y & -> & Hgap & Hy)%IH. exists (c :: gap), y.
      split_and!; [done| |done].
      intros [|i] Hi; [done|]. apply Hgap. simpl in Hi. lia.
Qed.

(** The match of the start-date rule in a text without double quote ends
    with the last [&start_date=] of the text. *)
Lemma record_match_last y e g :
  match_at pat_start_date y = Some (e, g) → quote ∉ y →
  ∃ w1 t, y = w1 ++ sd_sep ++ t ∧ e = length w1 + 12
          ∧ ∀ t1 t2, t ≠ t1 ++ sd_sep ++ t2.
Proof.
  intros Hm Hq.
  pose (tail := Seq (Str (lit "&")) (Group 2 (Str (lit "start_date=")))).
  pose (K := λ (p : nat) (t : text) (g' : gmap nat (nat * nat)),
               rmatch tail (λ p _ g, Some (p, g)) p t (<[1 := (0, p)]> g')).
  change (rmatch (Seq (Str (lit "p")) (Seq (Plus Digit) (Str (lit "/get-"))))
            (rmatch (Plus (NoneOf quote)) K) 0 y ∅ = Some (e, g)) in Hm.
  apply rmatch_sound in Hm as (w & t0 & g' & -> & _ & Hm).
  cbn [rmatch] in Hm.
  apply plus_then_longest in Hm as (X & t1 & -> & _ & _ & Hk & Hmax).
  unfold K in Hk.
  apply rmatch_sound in Hk as (w' & t & g'' & -> & Hw' & [= <- _]).
  assert (w' = sd_sep) as ->.
  { apply matches_lang in Hw'. unfold tail in Hw'.
    inversion Hw' as [| |???? H1 H2|]; subst.
    inversion H2; subst. apply lang_str_inv in H1 as ->.
    match goal with H : lang (Str _) _ |- _ => apply lang_str_inv in H as -> end.
    done. }
  exists (w ++ X), t. split_and!.
  - by list_norm.
  - rewrite length_app, sd_sep_length. lia.
  - intros u1 u2 ->.
    assert (Hnone : K (0 + length w + length (X ++ sd_sep ++ u1))
                      (sd_sep ++ u2) g' = None).
    { apply Hmax; [by list_norm| |].
      - rewrite !not_elem_of_app in Hq.
        destruct Hq as (_ & HX & Hsd & Hu1 & _).
        apply Forall_forall. intros c Hc. apply NoneOf_quote. intros ->.
        rewrite !elem_of_app in Hc. destruct Hc as [?|[?|?]]; done.
      - rewrite !length_app, sd_sep_length. lia. }
    unfold K in Hnone.
    eapply is_Some_None. rewrite <- Hnone.
    eapply rmatch_complete; [|by eexists].
    unfold tail. change sd_sep with (lit "&" ++ lit "start_date=").
    econstructor; [constructor|]. constructor. constructor.
Qed.

Lemma no_sd_unmatched t :
  (∀ t1 t2, t ≠ t1 ++ sd_sep ++ t2) → re_search pat_start_date t = false.
Proof.
  intros Hno. destruct (re_search pat_start_date t) eqn:R; [exfalso|done].
  destruct record_flat as [FA FB].
  apply re_search_true in R as (x & y & -> & [[e g] Hm]).
  apply (rule_sound _ _ FA FB) in Hm
    as (w1 & w2 & t' & -> & _ & ->%lang_str_inv & _).
  apply (Hno (x ++ w1) t'). by list_norm.
Qed.

(** ** Rules that do not disturb each other *)

Lemma sim_refl param s : sim param s s.
Proof. induction s; by constructor. Qed.

Lemma sim_app_same param a s s' :
  sim param s s' → sim param (a ++ s) (a ++ s').
Proof. intros H. induction a; [done|]. by constructor. Qed.

Lemma sim_amp_rel param s s' : sim param s s' → Forall2 amp_step s s'.
Proof.
  induction 1; constructor; try done; [apply amp_step_refl|by right].
Qed.

Lemma sim_app_inv param a b s' :
  sim param (a ++ b) s' →
  ∃ a' b', s' = a' ++ b' ∧ length a' = length a
           ∧ Forall2 amp_step a a' ∧ sim param b b'.
Proof.
  revert s'. induction a as [|c a IH]; intros s' H.
  - exists [], s'. split_and!; [done|done|constructor|done].
  - simpl in H. inversion H as [|? ? s1 H1|? s1 H1 Hp]; subst.
    + destruct (IH _ H1) as (a' & b' & -> & Hl & Ha & Hb).
      exists (c :: a'), b'.
      split_and!; [done|simpl; lia| |done].
      constructor; [apply amp_step_refl|done].
    + destruct (IH _ H1) as (a' & b' & -> & Hl & Ha & Hb).
      exists (quest :: a'), b'.
      split_and!; [done|simpl; lia| |done].
      constructor; [by right|done].
Qed.

Lemma strip_sim param l s s' :
  blind (Str l) = true → sim param s s' →
  match strip l s, strip l s' with
  | Some t, Some t' => sim param t t'
  | None, None => True
  | _, _ => False
  end.
Proof.
  revert s s'. induction l as [|a l IH]; intros s s' Hl H; [done|].
  simpl in Hl. apply andb_prop in Hl as [Ha Hl].
  apply andb_prop in Ha as [Ha Hq].
  apply negb_true_iff in Ha, Hq.
  inversion H as [|c s1 s1' H1|s1 s1' H1 Hp]; subst; simpl.
  - done.
  - destruct (a =? c)%N; [by apply IH|done].
  - by rewrite Ha, Hq.
Qed.

Lemma plus_then_sim {A} param k (κ κ' : nat → text → option A) pos s s' :
  in_class k amp = in_class k quest →
  (∀ p t t', sim param t t' → κ p t = κ' p t') →
  sim param s s' →
  plus_then k κ pos s = plus_then k κ' pos s'.
Proof.
  intros Hk Hκ H. revert pos.
  induction H as [|c s s' H IH|s s' H IH Hp]; intros pos; simpl.
  - done.
  - destruct (in_class k c); [|done]. by rewrite IH, (Hκ _ _ _ H).
  - rewrite <- Hk. destruct (in_class k amp); [|done].
    by rewrite IH, (Hκ _ _ _ H).
Qed.

Lemma rmatch_sim param r κ κ' pos s s' g :
  blind r = true →
  (∀ p t t' g, sim param t t' → κ p t g = κ' p t' g) →
  sim param s s' →
  rmatch r κ pos s g = rmatch r κ' pos s' g.
Proof.
  revert κ κ' pos s s' g.
  induction r as [l|k|r1 IH1 r2 IH2|i r IH];
    intros κ κ' pos s s' g Hr Hκ H; simpl in *.
  - pose proof (strip_sim param l s s' Hr H) as Hs.
    destruct (strip l s), (strip l s'); try done. by apply Hκ.
  - apply (plus_then_sim param); [by apply eqb_prop|..|done].
    intros. by apply Hκ.
  - apply andb_prop in Hr as [H1 H2]. apply IH1; [done| |done].
    intros. by apply IH2.
  - apply IH; [done| |done]. intros. by apply Hκ.
Qed.

Lemma tail_match param κ p t g :
  rmatch (Seq (Str (lit "&")) (Group 2 (Str param))) κ p t g
  = match t with
    | c :: t1 =>
        if (amp =? c)%N then
          match strip param t1 with
          | Some t2 =>
              κ (p + 1 + length param) t2
                (<[2 := (p + 1, p + 1 + length param)]> g)
          | None => None
          end
        else None
    | [] => None
    end.
Proof.
  destruct t as [|c t]; [done|]. change (lit "&") with [amp].
  cbn [rmatch strip length]. by destruct (amp =? c)%N.
Qed.

Lemma match_at_sim A param s s' :
  blind A = true → blind (Str param) = true → sim param s s' →
  match_at (rule_pat A (Str param)) s = match_at (rule_pat A (Str param)) s'.
Proof.
  intros HA Hp H. unfold match_at, rule_pat. cbn [rmatch].
  apply (rmatch_sim param); [done| |done].
  clear s s' H. intros p t t' g H.
  change (rmatch (Seq (Str (lit "&")) (Group 2 (Str param)))
            (λ p _ g, Some (p, g)) p t (<[1:=(0, p)]> g)
          = rmatch (Seq (Str (lit "&")) (Group 2 (Str param)))
              (λ p _ g, Some (p, g)) p t' (<[1:=(0, p)]> g)).
  rewrite !tail_match.
  inversion H as [|c s1 s1' H1|s1 s1' H1 Hs]; subst.
  - done.
  - destruct (amp =? c)%N; [|done].
    pose proof (strip_sim param param s1 s1' Hp H1) as Hs.
    by destruct (strip param s1), (strip param s1').
  - by rewrite Hs.
Qed.

Lemma overlay_app (a' b' a b : text) :
  length a' = length a →
  overlay (a' ++ b') (a ++ b) = overlay a' a ++ overlay b' b.
Proof.
  revert a. induction a' as [|c a' IH]; intros [|d a] Hl; try done.
  simpl. f_equal. apply IH. simpl in Hl. lia.
Qed.

Lemma overlay_amp_rel (a a' : text) :
  Forall2 amp_step a a' → overlay a' a = a'.
Proof.
  induction 1 as [|c d a a' Hcd _ IH]; [done|]. simpl. rewrite IH.
  f_equal. destruct Hcd as [->|[-> ->]]; [|done].
  by destruct (N.eqb_spec c quest).
Qed.

Lemma overlay_comm (s a b : text) :
  Forall2 amp_step s a → Forall2 amp_step s b → overlay a b = overlay b a.
Proof.
  intros Ha. revert b. induction Ha as [|c d s a Hcd _ IH]; intros b Hb.
  - by apply Forall2_nil_inv_l in Hb as ->.
  - apply Forall2_cons_inv_l in Hb as (e & b' & Hce & Hb & ->).
    simpl. rewrite (IH _ Hb). f_equal.
    destruct Hcd as [->|[-> ->]], Hce as [->|[? ->]]; subst;
      try done; by destruct (N.eqb_spec c quest).
Qed.

(** The scan at a match, with the groups of the match. *)
Lemma rule_hit_groups A B x e g :
  flat A = true → flat B = true →
  match_at (rule_pat A B) x = Some (e, g) →
  ∃ w1 w2 t, x = w1 ++ amp :: w2 ++ t
    ∧ g !! 1 = Some (0, length w1)
    ∧ g !! 2 = Some (S (length w1), S (length w1) + length w2)
    ∧ re_sub (rule_pat A B) repl x
      = w1 ++ quest :: w2 ++ re_sub (rule_pat A B) repl t.
Proof.
  intros FA FB Hx. pose proof Hx as Hx'.
  apply match_at_sound in Hx' as (w & t & -> & Hw & ->).
  apply (rule_matches_inv _ _ FA FB) in Hw
    as (w1 & w2 & -> & _ & _ & H1 & H2).
  exists w1, w2, t. revert Hx. list_norm. intros Hx.
  split_and!; [done..|].
  rewrite (re_sub_hit _ _ _ _ _ Hx);
    [|rewrite length_app; simpl; lia|by destruct w1].
  rewrite (rule_expand g w1 w2 t H1 H2).
  replace (length (w1 ++ amp :: w2)) with (S (length w1 + length w2))
    by (rewrite length_app; simpl; lia).
  rewrite drop_rule. by list_norm.
Qed.

(** A rule on a text and on the same text with some separators that are
    not its own already rewritten: the rule does the same work. *)
Lemma re_sub_sim A param s s' :
  flat A = true → blind A = true → blind (Str param) = true →
  sim param s s' →
  re_sub (rule_pat A (Str param)) repl s'
  = overlay s' (re_sub (rule_pat A (Str param)) repl s).
Proof.
  intros FA HA Hp. remember (length s) as n eqn:Hn. revert s s' Hn.
  induction n as [n IH] using lt_wf_ind. intros s s' -> H.
  pose proof (match_at_sim A param s s' HA Hp H) as Hmm.
  destruct s as [|c s]; [by inversion H|].
  destruct (match_at (rule_pat A (Str param)) (c :: s)) as [[e g]|] eqn:Hm.
  - symmetry in Hmm.
    assert (Hd := λ x, rule_hit_groups A (Str param) x e g FA eq_refl).
    destruct (Hd _ Hm) as (w1 & w2 & t & Hs & H1 & H2 & ->).
    destruct (Hd _ Hmm) as (w1' & w2' & t' & -> & H1' & H2' & ->).
    rewrite Hs in H.
    assert (length w1' = length w1) as Hl1 by congruence.
    assert (length w2' = length w2) as Hl2.
    { rewrite H2 in H2'. injection H2' as E1 E2. lia. }
    apply sim_app_inv in H as (a' & r' & Heq & Hla & Ha & H).
    apply app_inj_1 in Heq as [<- <-]; [|lia].
    inversion H as [|? ? r H'|]; subst.
    apply sim_app_inv in H' as (b' & r' & Heq & Hlb & Hb & H').
    apply app_inj_1 in Heq as [<- <-]; [|lia].
    rewrite overlay_app by done. simpl.
    rewrite overlay_app by done.
    rewrite !overlay_amp_rel by done.
    rewrite <- (IH (length t)) with (s := t); [done| |done|done].
    apply (f_equal length) in Hs. revert Hs. simpl.
    rewrite !length_app. simpl. rewrite length_app. lia.
  - symmetry in Hmm.
    inversion H as [|? ? s1' H1|? s1' H1 Hs]; subst.
    + rewrite !re_sub_miss by done. simpl.
      rewrite <- (IH (length s)) with (s := s); [|simpl; lia|done|done].
      f_equal. by destruct (N.eqb_spec c quest).
    + rewrite !re_sub_miss by done. simpl.
      by rewrite <- (IH (length s)) with (s := s); [|simpl; lia|done|done].
Qed.

Lemma clash_strip p1 p2 (x : text) :
  clash p1 p2 = true → strip p2 (p1 ++ x) = None.
Proof.
  revert p2. induction p1 as [|a p1 IH]; intros [|b p2] H; try done.
  simpl in *. rewrite N.eqb_sym.
  destruct (a =? b)%N; [by apply IH|done].
Qed.

Lemma clash_sym p1 p2 : clash p1 p2 = clash p2 p1.
Proof.
  revert p2. induction p1 as [|a p1 IH]; intros [|b p2]; try done.
  simpl. rewrite N.eqb_sym. by destruct (b =? a)%N.
Qed.

(** What a rule rewrites does not stand in front of a clashing
    parameter name. *)
Lemma rewrites_sim A p1 p2 s o :
  clash p1 p2 = true → rewrites A (Str p1) s o → sim p2 s o.
Proof.
  intros Hc. induction 1 as [|c s o _ IH|w1 w2 s o _ ->%lang_str_inv _ IH].
  - constructor.
  - by constructor.
  - apply sim_app_same. constructor; [by apply sim_app_same|].
    by apply clash_strip.
Qed.

(** Two compatible rules may be applied in either order. *)
Lemma compatible_commute rule1 rule2 s :
  compatible rule1 rule2 = true →
  apply_rule (apply_rule s rule1) rule2
  = apply_rule (apply_rule s rule2) rule1.
Proof.
  destruct rule1 as [A1 p1], rule2 as [A2 p2].
  unfold compatible, apply_rule. cbn [fst snd]. rewrite !andb_true_iff.
  intros [[[[[[F1 F2] B1] B2] C1] C2] Hc].
  pose proof (re_sub_rewrites A1 (Str p1) F1 eq_refl s) as R1.
  pose proof (re_sub_rewrites A2 (Str p2) F2 eq_refl s) as R2.
  rewrite (re_sub_sim A2 p2 s _ F2 B2 C2 (rewrites_sim _ _ _ _ _ Hc R1)).
  rewrite clash_sym in Hc.
  rewrite (re_sub_sim A1 p1 s _ F1 B1 C1 (rewrites_sim _ _ _ _ _ Hc R2)).
  eapply overlay_comm; by eapply rewrites_amp_rel.
Qed.

Lemma spec_rules_commute rule1 rule2 s :
  rule1 ∈ spec_rules → rule2 ∈ spec_rules →
  apply_rule (apply_rule s rule1) rule2
  = apply_rule (apply_rule s rule2) rule1.
Proof.
  unfold spec_rules. rewrite !elem_of_cons, !elem_of_nil.
  intros [->|[->|[->|[->|[->|[]]]]]] [->|[->|[->|[->|[->|[]]]]]];
    first [reflexivity | apply compatible_commute; by vm_compute].
Qed.

Lemma fold_left_perm {A B} (f : A → B → A) (l l' : list B) :
  l ≡ₚ l' →
  (∀ x y a, x ∈ l → y ∈ l → f (f a x) y = f (f a y) x) →
  ∀ a, fold_left f l a = fold_left f l' a.
Proof.
  induction 1 as [|x l l' Hp IH|x y l|l l' l'' Hp1 IH1 Hp2 IH2];
    intros Hc a; simpl.
  - done.
  - apply IH. intros. apply Hc; by right.
  - f_equal. apply Hc; [left|right; left].
  - rewrite IH1 by done. apply IH2.
    intros x y b Hx Hy. apply Hc; by rewrite Hp1.
Qed.

Lemma transform_cut (a b : text) :
  transform (a ++ quote :: b) = transform a ++ quote :: transform b.
Proof. unfold transform. by rewrite !sub_cut_quote by in_list. Qed.

(** ** Where a rewritten separator stood *)

Lemma spec_rules_facts rule :
  rule ∈ spec_rules →
  flat rule.1 = true ∧ (quest ∉ rule.2)
  ∧ ∀ w w0, lang rule.1 w → Forall2 amp_step w0 w → lang rule.1 w0.
Proof.
  assert (L : ∀ path param, light_ok path param = true →
            ∀ w w0, lang (light_path path) w → Forall2 amp_step w0 w →
                    lang (light_path path) w0).
  { intros path param Hok w w0 Hw H0.
    apply amp_rel_no_quest in H0 as ->; [done|].
    by eapply light_word_no_quest. }
  unfold spec_rules. rewrite !elem_of_cons, elem_of_nil.
  intros [->|[->|[->|[->|[->|[]]]]]]; cbn [fst snd]; split_and!;
    try done; try not_in_lit.
  - apply (L _ _ brightness_ok).
  - apply (L _ _ hue_ok).
  - apply (L _ _ color_ok).
  - apply (L _ _ effect_ok).
  - intros w w0 ? ?. by eapply record_word_pull.
Qed.

Lemma stage_sound rule s0 s i :
  rule ∈ spec_rules → Forall2 amp_step s0 s →
  s !! i = Some amp → apply_rule s rule !! i = Some quest →
  ∃ x w y, s0 = x ++ w ++ amp :: rule.2 ++ y
           ∧ i = length x + length w ∧ lang rule.1 w.
Proof.
  intros (FA & Hq & Hpull)%spec_rules_facts H0 Hs Ho.
  destruct rule as [A param]. unfold apply_rule in Ho. cbn [fst snd] in *.
  pose proof (re_sub_rewrites A (Str param) FA eq_refl s) as Hrw.
  destruct (rewrites_changed _ _ _ _ _ Hrw Hs Ho)
    as (x & w1 & w2 & y & -> & -> & Hw & ->%lang_str_inv).
  apply Forall2_app_inv_r in H0 as (x0 & r & Hx & Hr & ->).
  apply Forall2_app_inv_r in Hr as (w0 & r' & Hw0 & Hr & ->).
  apply Forall2_cons_inv_r in Hr as (c & r & Hc & Hr & ->).
  apply Forall2_app_inv_r in Hr as (p0 & y0 & Hp0 & Hy & ->).
  apply amp_rel_no_quest in Hp0 as ->; [|done].
  assert (c = amp) as -> by by destruct Hc as [?|[? ?]].
  exists x0, w0, y0. split_and!; [done| |by eapply Hpull].
  by rewrite (Forall2_length _ _ _ Hx), (Forall2_length _ _ _ Hw0).
Qed.

Lemma chain_sound rules s0 s i :
  (∀ rule, rule ∈ rules → rule ∈ spec_rules) →
  Forall2 amp_step s0 s → s !! i = Some amp →
  fold_left apply_rule rules s !! i = Some quest →
  ∃ rule x w y, rule ∈ spec_rules
    ∧ s0 = x ++ w ++ amp :: rule.2 ++ y
    ∧ i = length x + length w ∧ lang rule.1 w.
Proof.
  revert s. induction rules as [|rule rules IH]; intros s Hin H0 Hs Ho.
  - simpl in Ho. by assert (amp = quest) by congruence.
  - simpl in Ho.
    assert (Hr : rule ∈ spec_rules) by (apply Hin; left).
    assert (H1 : Forall2 amp_step s (apply_rule s rule)).
    { destruct (spec_rules_facts _ Hr) as (FA & _).
      eapply rewrites_amp_rel.
      apply (re_sub_rewrites rule.1 (Str rule.2) FA eq_refl). }
    destruct (Forall2_lookup_l _ _ _ _ _ H1 Hs) as (d & Hd & [->|[_ ->]]).
    + apply (IH (apply_rule s rule)); [|by eapply amp_rel_trans|done..].
      intros. apply Hin. by right.
    + destruct (stage_sound rule s0 s i Hr H0 Hs Hd) as (x & w & y & ?).
      by exists rule, x, w, y.
Qed.

(** ** The spans of the scan *)

Lemma in_order_lower lo lo' hi l :
  lo' ≤ lo → in_order lo hi l → in_order lo' hi l.
Proof.
  destruct l as [|[b e] l]; simpl; [done|].
  intros ? (?&?&?&?). split_and!; [lia..|done].
Qed.

Lemma spans_in_order A B s pos :
  flat A = true → flat B = true →
  in_order pos (pos + length s) (spans_from (rule_pat A B) pos 0 s).
Proof.
  intros FA FB. remember (length s) as n eqn:Hn. revert s Hn pos.
  induction n as [n IH] using lt_wf_ind. intros s -> pos.
  destruct s as [|c s]; [done|].
  destruct (match_at (rule_pat A B) (c :: s)) as [[e g]|] eqn:Hm.
  - pose proof Hm as Hm'.
    apply (rule_sound _ _ FA FB) in Hm' as (w1 & w2 & t & Hs & _ & _ & He & _).
    assert (Hl : length (c :: s) = e + length t).
    { rewrite Hs, He, !length_app. simpl. rewrite length_app. lia. }
    rewrite (spans_hit _ _ _ _ _ Hm) by (done || lia).
    rewrite Hs, He, drop_rule, <- He, <- Hs. simpl in *.
    split_and!; [lia..|].
    replace (pos + S (length s)) with (pos + e + length t) by lia.
    apply (IH (length t)); [lia|done].
  - rewrite spans_miss by done.
    apply (in_order_lower (S pos)); [lia|].
    replace (pos + length (c :: s)) with (S pos + length s) by (simpl; lia).
    apply (IH (length s)); [simpl; lia|done].
Qed.

(** ** A record call with one start date *)

Lemma record_word_push w w' :
  lang record_path w → Forall2 amp_step w w' → lang record_path w'.
Proof.
  intros (ds & x & -> & Hne & Hds & Hx & Hq)%lang_record_path.
  intros (p0 & r & Hp & Hr & ->)%Forall2_app_inv_l.
  apply Forall2_app_inv_l in Hr as (ds0 & r' & Hds0 & Hr & ->).
  apply Forall2_app_inv_l in Hr as (g0 & x0 & Hg & Hx0 & ->).
  apply amp_rel_no_amp in Hp as ->.
  2:{ not_in_lit. }
  apply amp_rel_no_amp in Hds0 as ->; [|by apply digits_not].
  apply amp_rel_no_amp in Hg as ->.
  2:{ not_in_lit. }
  apply lang_record_path. exists ds, x0. split_and!; try done.
  - intros ->. apply Forall2_nil_inv_r in Hx0. done.
  - clear Hx. induction Hx0 as [|c d x x0 Hcd _ IH]; [done|].
    apply Forall_cons in Hq as [Hc Hq]. constructor; [|by apply IH].
    destruct Hcd as [->|[_ ->]]; [done|].
    intros E. by assert (quest = quote) by exact E.
Qed.

Lemma record_call_fixed u w v :
  lang record_path w → ¬ crowded (u ++ w ++ sd_sep ++ v) →
  ∃ u' w' v',
    transform (u ++ w ++ sd_sep ++ v)
    = u' ++ w' ++ lit "?start_date=" ++ v'
    ∧ Forall2 amp_step u u' ∧ Forall2 amp_step w w'
    ∧ Forall2 amp_step v v'.
Proof.
  intros Hw Hnc. set (m := u ++ w ++ sd_sep ++ v) in *.
  assert (Hq : transform m !! (length u + length w) = Some quest).
  { subst m. rewrite transform_light_pass.
    pose proof (light_pass_amp_rel (u ++ w ++ sd_sep ++ v)) as H4'.
    apply Forall2_app_inv_l in H4' as (u4 & r & Hu & Hr & E4).
    apply Forall2_app_inv_l in Hr as (w4 & r' & Hw4 & Hr & ->).
    apply Forall2_app_inv_l in Hr as (sd4 & v4 & Hsd & Hv & ->).
    rewrite (Forall2_length _ _ _ Hu), (Forall2_length _ _ _ Hw4).
    change sd_sep with (amp :: lit "start_date=") in Hsd.
    apply Forall2_cons_inv_l in Hsd as (c & t & Hc & Ht & ->).
    apply amp_rel_no_amp in Ht as ->.
    2:{ not_in_lit. }
    destruct Hc as [->|[_ ->]].
    - rewrite E4. apply (sd_hit u4 w4 v4).
      + by eapply record_word_push.
      + intros Hc. apply Hnc.
        apply (crowded_pull _ (light_pass (u ++ w ++ sd_sep ++ v)));
          [apply light_pass_amp_rel|].
        rewrite E4. exact Hc.
    - eapply amp_rel_quest.
      + apply (sub_amp_rel pat_start_date). in_list.
      + rewrite E4, app_assoc. apply list_lookup_middle.
        by rewrite length_app. }
  pose proof (transform_amp_rel m) as H. subst m.
  apply Forall2_app_inv_l in H as (u' & r & Hu & Hr & E).
  apply Forall2_app_inv_l in Hr as (w' & r' & Hw' & Hr & ->).
  apply Forall2_app_inv_l in Hr as (sd' & v' & Hsd & Hv & ->).
  change sd_sep with (amp :: lit "start_date=") in Hsd.
  apply Forall2_cons_inv_l in Hsd as (c & t & Hc & Ht & ->).
  apply amp_rel_no_amp in Ht as ->.
  2:{ not_in_lit. }
  exists u', w', v'. split_and!; try done.
  rewrite E in Hq |- *.
  rewrite (Forall2_length _ _ _ Hu), (Forall2_length _ _ _ Hw') in Hq.
  assert (Hc' : (u' ++ w' ++ (c :: lit "start_date=") ++ v')
                 !! (length u' + length w') = Some c).
  { rewrite app_assoc. apply list_lookup_middle. by rewrite length_app. }
  rewrite Hc' in Hq. by injection Hq as ->.
Qed.

(** ** What no run does *)







End Further.

(** X1: the light-strip rules never need a second pass, on any text.
    After the four rules, and after the whole transformation, none of
    their patterns matches any more; each of the four rules, and the four
    in a row, applied twice give what they give applied once. *)
Theorem light_rules_settle (s : text) :
  (∀ r, r ∈ [pat_brightness; pat_hue; pat_color; pat_effect] →
        re_search r (light_pass s) = false
        ∧ re_search r (transform s) = false
        ∧ re_sub r repl (re_sub r repl s) = re_sub r repl s)
  ∧ light_pass (light_pass s) = light_pass s.
Proof.
  split.
  - intros r Hr. split_and!.
    + apply (light_pass_unmatched s r Hr), amp_rel_refl.
    + apply (light_pass_unmatched s r Hr). rewrite transform_light_pass.
      apply sub_amp_rel. in_list.
    + apply re_sub_no_match.
      rewrite !elem_of_cons, elem_of_nil in Hr.
      destruct Hr as [->|[->|[->|[->|[]]]]].
      * apply (light_once _ _ brightness_ok s), amp_rel_refl.
      * apply (light_once _ _ hue_ok s), amp_rel_refl.
      * apply (light_once _ _ color_ok s), amp_rel_refl.
      * apply (light_once _ _ effect_ok s), amp_rel_refl.
  - assert (H : ∀ r, r ∈ [pat_brightness; pat_hue; pat_color; pat_effect] →
                    re_sub r repl (light_pass s) = light_pass s).
    { intros r Hr. apply re_sub_no_match.
      apply (light_pass_unmatched s r Hr), amp_rel_refl. }
    unfold light_pass at 1. cbv zeta.
    rewrite (H pat_brightness), (H pat_hue), (H pat_color), (H pat_effect);
      first [done | in_list].
Qed.

(** X2: the transformation changes a text exactly when one of the five
    patterns matches somewhere in it. *)
Theorem transform_changes_iff_matched (s : text) :
  transform s = s ↔ unmatched s = true.
Proof.
  split; [|apply transform_unmatched].
  intros Hs. unfold transform in Hs.
  set (s1 := re_sub pat_brightness repl s) in *.
  set (s2 := re_sub pat_hue repl s1) in *.
  set (s3 := re_sub pat_color repl s2) in *.
  set (s4 := re_sub pat_effect repl s3) in *.
  assert (H01 : Forall2 amp_step s s1) by (apply sub_amp_rel; in_list).
  assert (H12 : Forall2 amp_step s1 s2) by (apply sub_amp_rel; in_list).
  assert (H23 : Forall2 amp_step s2 s3) by (apply sub_amp_rel; in_list).
  assert (H34 : Forall2 amp_step s3 s4) by (apply sub_amp_rel; in_list).
  assert (H45 : Forall2 amp_step s4 (re_sub pat_start_date repl s4))
    by (apply sub_amp_rel; in_list).
  rewrite Hs in H45.
  assert (E1 : s1 = s)
    by (symmetry; apply amp_rel_antisym; eauto 6 using amp_rel_trans).
  assert (E2 : s2 = s).
  { symmetry; apply amp_rel_antisym; eauto 6 using amp_rel_trans. }
  assert (E3 : s3 = s).
  { symmetry; apply amp_rel_antisym; eauto 6 using amp_rel_trans. }
  assert (E4 : s4 = s).
  { symmetry; apply amp_rel_antisym; eauto 6 using amp_rel_trans. }
  assert (N : ∀ r, r ∈ patterns → re_sub r repl s = s →
                re_search r s = false).
  { intros r (A & B & -> & FA & FB)%patterns_shape E.
    destruct (re_search (rule_pat A B) s) eqn:R; [|done].
    by apply (re_sub_changes A B s FA FB) in R. }
  subst s1 s2 s3 s4. rewrite E1 in E2. rewrite E1, E2 in E3.
  rewrite E1, E2, E3 in E4. rewrite E1, E2, E3, E4 in Hs.
  unfold unmatched, patterns. cbn [forallb].
  by rewrite !N by (done || in_list).
Qed.

(** X3: a light-strip rule puts [?] exactly where the text had [?]
    already or had the [&] between [l9], a run of one or more digits and
    the rule's path, and the rule's parameter name. *)
Theorem light_rule_rewrites_exactly (path param s : text) (i : nat) :
  (path, param) ∈ light_rules →
  re_sub (light_pat path param) repl s !! i = Some quest
  ↔ s !! i = Some quest
    ∨ ∃ x ds y,
        ds ≠ [] ∧ digits ds
        ∧ s = x ++ lit "l9" ++ ds ++ path ++ amp :: param ++ y
        ∧ i = length x + 2 + length ds + length path.
Proof.
  intros Hok%light_rules_ok. destruct (light_flat path param) as [FA FB].
  pose proof (re_sub_rewrites _ _ FA FB s) as Hrw.
  pose proof (rewrites_amp_rel _ _ _ _ Hrw) as Hrel.
  split.
  - intros Ho.
    destruct (Forall2_lookup_r _ _ _ _ _ Hrel Ho) as (c & Hc & [->|[-> _]]);
      [by left|right].
    destruct (rewrites_changed _ _ _ _ _ Hrw Hc Ho)
      as (x & w1 & w2 & y & -> & -> & (ds & -> & ? & ?)%lang_light_path
          & ->%lang_str_inv).
    exists x, ds, y. split_and!; [done|done|by list_norm|].
    rewrite !length_app. simpl. lia.
  - intros [Hq|(x & ds & y & Hne & Hds & -> & ->)].
    + by eapply amp_rel_quest.
    + replace (x ++ lit "l9" ++ ds ++ path ++ amp :: param ++ y)
        with (x ++ (lit "l9" ++ ds ++ path) ++ amp :: param ++ y)
        by by list_norm.
      rewrite (light_sub_app _ _ Hok) by (apply lang_light_path; eauto).
      rewrite (app_assoc _ (lit "l9" ++ ds ++ path)).
      apply list_lookup_middle. rewrite !length_app.
      pose proof (rewrites_length _ _ _ _ (re_sub_rewrites _ _ FA FB x)) as Hx.
      unfold light_pat. rewrite Hx. simpl. lia.
Qed.

(** The same on one hue call. *)
Lemma light_rule_rewrites_exactly_witness :
  re_sub (light_pat (lit "/set-hue-saturation") (lit "hue=")) repl
    (lit "l91/set-hue-saturation&hue=3") !! 22
  = Some quest
  ↔ lit "l91/set-hue-saturation&hue=3" !! 22 = Some quest
    ∨ ∃ x ds y,
        ds ≠ [] ∧ digits ds
        ∧ lit "l91/set-hue-saturation&hue=3"
          = x ++ lit "l9" ++ ds ++ lit "/set-hue-saturation"
            ++ amp :: lit "hue=" ++ y
        ∧ 22 = length x + 2 + length ds + length (lit "/set-hue-saturation").
Proof.
  apply (light_rule_rewrites_exactly
           (lit "/set-hue-saturation") (lit "hue=")
           (lit "l91/set-hue-saturation&hue=3") 22).
  in_list.
Defined.

(** X4: when the loop body gets through both files (each is a regular
    file that may be read and written, decodes, and meets no fault of the
    device) the run ends without error; each file then holds the bytes of
    the transformation of the text it held, every other path is as it was,
    the two writes and the one printed line are all the run did, in that
    order. *)
Theorem run_patches_both_files (w : world) (f1 f2 : file) (c1 c2 : text) :
  holds w "TapoLightStripOperations.cs" f1 c1 →
  holds w "TapoPlugOperations.cs" f2 c2 →
  ∃ w' b1 b2,
    run w = (w', inr tt)
    ∧ write_bytes (platform_of w) (transform c1) = Some b1
    ∧ write_bytes (platform_of w) (transform c2) = Some b2
    ∧ fs w' !! "TapoLightStripOperations.cs"%string
      = Some (Regular (File b1 true true))
    ∧ fs w' !! "TapoPlugOperations.cs"%string
      = Some (Regular (File b2 true true))
    ∧ (∀ path, path ∉ files → fs w' !! path = fs w !! path)
    ∧ log w' = log w
               ++ [Wrote "TapoLightStripOperations.cs" (transform c1);
                   Wrote "TapoPlugOperations.cs" (transform c2);
                   Printed "Fixed URL constructions"]
    ∧ stdout w' = stdout w ++ ["Fixed URL constructions"%string].
Proof.
  intros H1 H2. destruct (run_ok _ _ _ _ _ H1 H2) as (b1 & b2 & Hb1 & Hb2 & Hr).
  eexists _, b1, b2. split; [exact Hr|]. split; [done|]. split; [done|].
  cbn. split_and!.
  - by rewrite lookup_insert_ne, lookup_insert_eq.
  - by rewrite lookup_insert_eq.
  - intros path Hp. unfold files in Hp.
    rewrite !not_elem_of_cons in Hp. destruct Hp as (? & ? & _).
    by rewrite !lookup_insert_ne.
  - done.
  - unfold stdout. cbn. by rewrite omap_app.
Qed.

(** The same on the scenario. *)
Lemma run_patches_both_files_witness :
  ∃ w' b1 b2,
    run scenario_world = (w', inr tt)
    ∧ write_bytes posix (transform scenario_in) = Some b1
    ∧ write_bytes posix (transform scenario_in) = Some b2
    ∧ fs w' !! "TapoLightStripOperations.cs"%string
      = Some (Regular (File b1 true true))
    ∧ fs w' !! "TapoPlugOperations.cs"%string
      = Some (Regular (File b2 true true))
    ∧ (∀ path, path ∉ files → fs w' !! path = fs scenario_world !! path)
    ∧ log w' = log scenario_world
               ++ [Wrote "TapoLightStripOperations.cs" (transform scenario_in);
                   Wrote "TapoPlugOperations.cs" (transform scenario_in);
                   Printed "Fixed URL constructions"]
    ∧ stdout w' = stdout scenario_world ++ ["Fixed URL constructions"%string].
Proof.
  apply (run_patches_both_files scenario_world
           (File (utf8 scenario_in) true true)
           (File (utf8 scenario_in) true true) scenario_in scenario_in);
    by repeat split; vm_compute.
Defined.

(** X5: the outcome of the run is decided by the first file on which the
    loop body fails, in the world as it was before the run: the run
    raises the error of that file (not found, a directory, permission
    denied, a fault of the device, or bytes that do not decode) and ends
    without error when the loop body fails on neither.  Encoding what
    is written never fails. *)
Theorem run_outcome (w : world) :
  (run w).2 =
  match failure w "TapoLightStripOperations.cs" with
  | Some e => inl e
  | None =>
      match failure w "TapoPlugOperations.cs" with
      | Some e => inl e
      | None => inr tt
      end
  end.
Proof.
  rewrite run_unfold.
  destruct (failure w "TapoLightStripOperations.cs") as [e|] eqn:E1.
  { apply patch_failure in E1.
    destruct (patch "TapoLightStripOperations.cs" w) as [w1 [e'|[]]];
      cbn [snd] in *; congruence. }
  apply failure_None in E1 as (f1 & c1 & H1).
  destruct (patch_ok _ _ _ _ H1) as (b1 & Hb1 & ->).
  match goal with |- context [patch _ ?w1] => set (w' := w1) end.
  assert (E : failure w' "TapoPlugOperations.cs"
              = failure w "TapoPlugOperations.cs")
    by by apply failure_frame.
  destruct (failure w "TapoPlugOperations.cs") as [e|] eqn:E2.
  { apply patch_failure in E.
    destruct (patch "TapoPlugOperations.cs" w') as [w2 [e'|[]]];
      cbn [snd] in *; congruence. }
  apply failure_None in E as (f2 & c2 & H2).
  by destruct (patch_ok _ _ _ _ H2) as (b2 & Hb2 & ->).
Qed.

(** X6: running the script again changes no file.  When the loop body
    gets through both files and in neither text two [&start_date=] stand
    without a double quote between them, a second run ends without error
    and leaves every file as the first run left it. *)
Theorem rerun_changes_no_file (w : world) (f1 f2 : file) (c1 c2 : text) :
  holds w "TapoLightStripOperations.cs" f1 c1 →
  holds w "TapoPlugOperations.cs" f2 c2 →
  ¬ crowded c1 → ¬ crowded c2 →
  ∃ w1 w2,
    run w = (w1, inr tt) ∧ run w1 = (w2, inr tt) ∧ fs w2 = fs w1.
Proof.
  intros H1 H2 Hc1 Hc2.
  destruct (run_ok _ _ _ _ _ H1 H2) as (b1 & b2 & Hb1 & Hb2 & Hr).
  eexists _, _. split; [exact Hr|].
  match goal with |- run ?w1 = _ ∧ _ => set (w' := w1) end.
  destruct H1 as (_ & _ & _ & Hq1 & Ht1), H2 as (_ & _ & _ & Hq2 & Ht2).
  assert (G1 : holds w' "TapoLightStripOperations.cs"
                 (File b1 true true) (transform c1)).
  { split_and!; try done.
    - cbn. by rewrite lookup_insert_ne, lookup_insert_eq.
    - by eapply transform_rereads. }
  assert (G2 : holds w' "TapoPlugOperations.cs"
                 (File b2 true true) (transform c2)).
  { split_and!; try done.
    - cbn. by rewrite lookup_insert_eq.
    - by eapply transform_rereads. }
  destruct (run_ok _ _ _ _ _ G1 G2) as (d1 & d2 & Hd1 & Hd2 & Hr').
  rewrite (transform_unmatched (transform c1)) in Hd1
    by by apply transform_unmatched_after.
  rewrite (transform_unmatched (transform c2)) in Hd2
    by by apply transform_unmatched_after.
  change (platform_of w') with (platform_of w) in Hd1, Hd2.
  rewrite Hb1 in Hd1. rewrite Hb2 in Hd2.
  injection Hd1 as <-. injection Hd2 as <-.
  split; [exact Hr'|]. cbn [fs].
  rewrite (insert_id _ "TapoLightStripOperations.cs"%string)
    by by rewrite lookup_insert_ne, lookup_insert_eq.
  by rewrite insert_id by by rewrite lookup_insert_eq.
Qed.

(** The same on the scenario. *)
Lemma rerun_changes_no_file_witness :
  ∃ w1 w2,
    run scenario_world = (w1, inr tt) ∧ run w1 = (w2, inr tt)
    ∧ fs w2 = fs w1.
Proof.
  apply (rerun_changes_no_file scenario_world
           (File (utf8 scenario_in) true true)
           (File (utf8 scenario_in) true true) scenario_in scenario_in);
    try (by repeat split; vm_compute); apply spaced_sound; reflexivity.
Defined.

(** X7: the double quote cuts the work in two.  No match of any of the
    five rules reaches over a double quote, so a text is transformed piece
    by piece: what stands before a double quote and what stands behind it
    come out as they would alone. *)
Theorem transform_cuts_at_quote (a b : text) :
  transform (a ++ quote :: b) = transform a ++ quote :: transform b.
Proof. apply transform_cut. Qed.

(** X8: in a text without double quote the start-date rule rewrites at
    most one separator, and it is the one of the last [&start_date=] of
    the text: the path of the rule is greedy. *)
Theorem start_date_rule_takes_the_last (s : text) :
  quote ∉ s →
  re_sub pat_start_date repl s = s
  ∨ ∃ u v,
      s = u ++ lit "&start_date=" ++ v
      ∧ (∀ v1 v2, v ≠ v1 ++ lit "&start_date=" ++ v2)
      ∧ re_sub pat_start_date repl s = u ++ lit "?start_date=" ++ v.
Proof.
  intros Hq.
  change pat_start_date with (rule_pat record_path (Str (lit "start_date="))).
  destruct (re_search (rule_pat record_path (Str (lit "start_date="))) s)
    eqn:R.
  2:{ left. by apply re_sub_no_match. }
  right. destruct record_flat as [FA FB].
  apply first_match in R as (gap & y & -> & Hgap & [[e g] Hm]).
  rewrite re_sub_gap by done.
  destruct (record_match_last y e g Hm) as (w1 & t & Hy & He & Hlast).
  { rewrite not_elem_of_app in Hq. tauto. }
  apply (re_sub_rule_hit _ _ FA FB) in Hm
    as (w1' & w2 & t' & Hy' & _ & ->%lang_str_inv & He' & ->).
  rewrite Hy in Hy'.
  change (w1' ++ amp :: lit "start_date=" ++ t')
    with (w1' ++ sd_sep ++ t') in Hy'.
  apply app_inj_1 in Hy' as [<- [= <-]%app_inv_head];
    [|simpl in He'; lia].
  exists (gap ++ w1), t. split_and!.
  - rewrite Hy. by list_norm.
  - exact Hlast.
  - rewrite (re_sub_no_match _ _ t) by by apply no_sd_unmatched.
    by list_norm.
Qed.

(** The same on a path with two start dates. *)
Lemma start_date_rule_takes_the_last_witness :
  re_sub pat_start_date repl (lit "p5/get-x&start_date=1&start_date=2")
  = lit "p5/get-x&start_date=1&start_date=2"
  ∨ ∃ u v,
      lit "p5/get-x&start_date=1&start_date=2"
      = u ++ lit "&start_date=" ++ v
      ∧ (∀ v1 v2, v ≠ v1 ++ lit "&start_date=" ++ v2)
      ∧ re_sub pat_start_date repl (lit "p5/get-x&start_date=1&start_date=2")
        = u ++ lit "?start_date=" ++ v.
Proof.
  apply (start_date_rule_takes_the_last
           (lit "p5/get-x&start_date=1&start_date=2")).
  not_in_lit.
Defined.

(** X9: the order of the rules does not matter.  Any two of the five
    rules may be swapped, and applying the five rules in any order gives
    the text that the script's order gives. *)
Theorem rule_order_is_immaterial (l : list (regex * text)) (s : text) :
  l ≡ₚ spec_rules →
  fold_left apply_rule l s = transform s
  ∧ ∀ r1 r2, r1 ∈ patterns → r2 ∈ patterns →
             re_sub r2 repl (re_sub r1 repl s)
             = re_sub r1 repl (re_sub r2 repl s).
Proof.
  intros Hp. split.
  - rewrite (fold_left_perm apply_rule l spec_rules Hp); [done|].
    intros x y a Hx Hy. apply spec_rules_commute; by rewrite <- Hp.
  - assert (R : ∀ r, r ∈ patterns →
                ∃ rule, rule ∈ spec_rules
                        ∧ ∀ t, re_sub r repl t = apply_rule t rule).
    { intros r. unfold patterns. rewrite !elem_of_cons, elem_of_nil.
      intros [->|[->|[->|[->|[->|[]]]]]];
        [ exists (light_path (lit "/set-brightness"), lit "level=")
        | exists (light_path (lit "/set-hue-saturation"), lit "hue=")
        | exists (light_path (lit "/set-color-temperature"),
                  lit "color_temperature=")
        | exists (light_path (lit "/set-lighting-effect"),
                  lit "lighting_effect=")
        | exists (record_path, lit "start_date=") ];
        (split; [in_spec_rules|done]). }
    intros r1 r2 (rule1 & H1 & E1)%R (rule2 & H2 & E2)%R.
    rewrite !E1, !E2. by apply spec_rules_commute.
Qed.

(** The same with the rules in the opposite order. *)
Lemma rule_order_is_immaterial_witness :
  fold_left apply_rule (reverse spec_rules) scenario_in
  = transform scenario_in
  ∧ ∀ r1 r2, r1 ∈ patterns → r2 ∈ patterns →
             re_sub r2 repl (re_sub r1 repl scenario_in)
             = re_sub r1 repl (re_sub r2 repl scenario_in).
Proof.
  apply (rule_order_is_immaterial (reverse spec_rules) scenario_in).
  apply reverse_Permutation.
Defined.

(** X10: the script rewrites no other separator.  An [&] that the
    transformation turns into [?] stood, in the text as it was, between a
    path of one of the five rules and the parameter name of that rule. *)
Theorem rewritten_separator_was_a_match (s : text) (i : nat) :
  s !! i = Some amp → transform s !! i = Some quest →
  ∃ rule x w y,
    rule ∈ spec_rules
    ∧ s = x ++ w ++ amp :: rule.2 ++ y
    ∧ i = length x + length w
    ∧ lang rule.1 w.
Proof.
  intros Hs Ho. apply (chain_sound spec_rules s s i); try done.
  apply amp_rel_refl.
Qed.

(** The same on one hue call. *)
Lemma rewritten_separator_was_a_match_witness :
  ∃ rule x w y,
    rule ∈ spec_rules
    ∧ lit "l91/set-hue-saturation&hue=3" = x ++ w ++ amp :: rule.2 ++ y
    ∧ 22 = length x + length w
    ∧ lang rule.1 w.
Proof.
  apply (rewritten_separator_was_a_match
           (lit "l91/set-hue-saturation&hue=3") 22); reflexivity.
Defined.

(** X11: the matches that a rule replaces follow one another in the
    text: none is empty, none starts before the one before it has ended,
    none reaches beyond the end of the text. *)
Theorem matches_follow_one_another (r : regex) (s : text) :
  r ∈ patterns → in_order 0 (length s) (finditer r s).
Proof.
  intros (A & B & -> & FA & FB)%patterns_shape.
  apply (spans_in_order A B s 0 FA FB).
Qed.

(** The same for the start-date rule on the scenario. *)
Lemma matches_follow_one_another_witness :
  in_order 0 (length scenario_in) (finditer pat_start_date scenario_in).
Proof. apply (matches_follow_one_another pat_start_date scenario_in). in_list. Defined.

(** X12: a record call in a string literal.  Where a double-quoted
    stretch holds [p<digits>/get-<name>&start_date=] and no second
    [&start_date=], the script turns that separator into [?], whatever
    stands around the quotes; the rest of the stretch changes by other
    separators at most. *)
Theorem record_call_in_literal_fixed (a b u ds x v : text) :
  ds ≠ [] → digits ds → x ≠ [] → quote ∉ x →
  ¬ crowded (u ++ (lit "p" ++ ds ++ lit "/get-" ++ x)
               ++ lit "&start_date=" ++ v) →
  ∃ u' x' v',
    transform (a ++ quote :: (u ++ (lit "p" ++ ds ++ lit "/get-" ++ x)
                                ++ lit "&start_date=" ++ v) ++ quote :: b)
    = transform a ++ quote :: (u' ++ (lit "p" ++ ds ++ lit "/get-" ++ x')
                                  ++ lit "?start_date=" ++ v')
                  ++ quote :: transform b
    ∧ Forall2 amp_step u u' ∧ Forall2 amp_step x x'
    ∧ Forall2 amp_step v v'.
Proof.
  intros Hne Hds Hx Hq Hnc.
  assert (Hw : lang record_path (lit "p" ++ ds ++ lit "/get-" ++ x)).
  { apply lang_record_path. exists ds, x. split_and!; try done.
    apply Forall_forall. by intros c Hc ->. }
  destruct (record_call_fixed u _ v Hw Hnc)
    as (u' & w' & v' & E & Hu & Hw' & Hv).
  apply Forall2_app_inv_l in Hw' as (p0 & r & Hp & Hr & ->).
  apply Forall2_app_inv_l in Hr as (ds0 & r' & Hds0 & Hr & ->).
  apply Forall2_app_inv_l in Hr as (g0 & x' & Hg & Hx' & ->).
  apply amp_rel_no_amp in Hp as ->.
  2:{ not_in_lit. }
  apply amp_rel_no_amp in Hds0 as ->; [|by apply digits_not].
  apply amp_rel_no_amp in Hg as ->.
  2:{ not_in_lit. }
  exists u', x', v'. split_and!; try done.
  rewrite transform_cut. do 2 f_equal.
  rewrite transform_cut. by rewrite <- E.
Qed.

(** The same on the record call of the scenario, in its quotes. *)
Lemma record_call_in_literal_fixed_witness :
  ∃ u' x' v',
    transform (lit "x = " ++ quote ::
                 ([] ++ (lit "p" ++ lit "100" ++ lit "/get-" ++ lit "energy-data")
                     ++ lit "&start_date=" ++ lit "2024-01-01")
                 ++ quote :: lit ";")
    = transform (lit "x = ") ++ quote ::
        (u' ++ (lit "p" ++ lit "100" ++ lit "/get-" ++ x')
            ++ lit "?start_date=" ++ v')
        ++ quote :: transform (lit ";")
    ∧ Forall2 amp_step [] u' ∧ Forall2 amp_step (lit "energy-data") x'
    ∧ Forall2 amp_step (lit "2024-01-01") v'.
Proof.
  apply (record_call_in_literal_fixed (lit "x = ") (lit ";") []
           (lit "100") (lit "energy-data") (lit "2024-01-01")).
  - done.
  - by repeat constructor.
  - done.
  - not_in_lit.
  - apply spaced_sound. reflexivity.
Defined.

